(** * Resize-and-watermarker: the single-image transform pipeline

    A shallow embedding of [processImage] (services/imageProcessor.ts) and
    of its caller [handleProcessAll] (App.tsx).

    Conventions of the embedding.
    - A JavaScript [number] is an exact rational ([Q]); [==] is equality of
      rationals.  Integer host values ([img.width], string lengths) are [Z].
    - Where an integer outcome depends on the rounding of doubles (the
      rounded target height, the number of turns of the tiling loops) the
      code is embedded a second time, in [Binary64], with every arithmetic
      operation rounded as IEEE 754 binary64 does.
    - The browser is a record of host functions ([Host]): text measurement,
      encoding of the canvas, the random source.
    - A [for] loop takes fuel.  A run is [Done s] when the loop left through
      its test and [Timeout s] when the fuel ran out first; both carry the
      state reached, so what has been painted so far stays observable.
    - The 2D context is a record: the current drawing state, the stack of
      [save]d states and the display list of what has been drawn. *)

From Stdlib Require Import QArith Qround Qabs Qpower Qreduction ZArith Lia Lqa.
From Stdlib Require Import List Ascii String Bool Arith.
From Stdlib Require Import Decimal DecimalNat DecimalString Sorted.
Import ListNotations.

Local Open Scope Q_scope.

(** ** JavaScript numbers *)

Module JS.

(** [a < b] on numbers, as used in loop tests and [if]s. *)
Definition ltb (a b : Q) : bool := negb (Qle_bool b a).

(** [Math.max(a, b)]. *)
Definition Math_max (a b : Q) : Q := if Qle_bool a b then b else a.

(** [Math.round(x)]: the nearest integer, ties towards +infinity. *)
Definition Math_round (x : Q) : Z := Qfloor (x + (1 # 2)).

(** [s.length], as a number. *)
Definition strlen (s : string) : Z := Z.of_nat (String.length s).

End JS.

(** ** types.ts *)

Inductive WatermarkPosition : Set :=
| TOP_LEFT
| TOP_RIGHT
| BOTTOM_LEFT
| BOTTOM_RIGHT
| CENTER
| TILED.

Definition WatermarkPosition_eqb (a b : WatermarkPosition) : bool :=
  match a, b with
  | TOP_LEFT, TOP_LEFT | TOP_RIGHT, TOP_RIGHT
  | BOTTOM_LEFT, BOTTOM_LEFT | BOTTOM_RIGHT, BOTTOM_RIGHT
  | CENTER, CENTER | TILED, TILED => true
  | _, _ => false
  end.

Record WatermarkSettings : Set := mkWatermark {
  text : string;
  fontSize : Q;
  color : string;
  opacity : Q;
  position : WatermarkPosition;
  padding : Q;
  rotation : Q;
  tilingGap : Q;
  contrast : Q
}.

Inductive ImageFormat : Set := image_jpeg | image_png | image_webp.

Definition formatString (f : ImageFormat) : string :=
  match f with
  | image_jpeg => "image/jpeg"
  | image_png => "image/png"
  | image_webp => "image/webp"
  end.

Record ResizeSettings : Set := mkResize {
  maxWidth : Q;
  quality : Q;
  format : ImageFormat
}.

Record ProcessedImage : Set := mkProcessed {
  id : string;
  originalName : string;
  previewUrl : string;
  processedUrl : string;
  width : Z;
  height : Z;
  size : Z
}.

(** ** Host objects *)

(** A decoded [HTMLImageElement]: its intrinsic [width] and [height]. *)
Record Image : Set := mkImage {
  img_width : Z;
  img_height : Z
}.

(** A [File] as the pipeline sees it: its name, whether the [FileReader]
    can read it ([reader.onerror] otherwise) and what the bytes decode to
    ([img.onload] fires only for [Some]). *)
Record File : Set := mkFile {
  name : string;
  readable : bool;
  decoded : option Image
}.

Record FileData : Set := mkFileData {
  file : File;
  fd_id : string
}.

(** ** processImage: resize dimensions (lines 19-26)

    On exact rationals; [Binary64.targetHeight] rounds the quotient and the
    product as the code does. *)

Definition targetWidth (img : Image) (resize : ResizeSettings) : Q :=
  if JS.ltb (maxWidth resize) (inject_Z (img_width img))
  then maxWidth resize
  else inject_Z (img_width img).

Definition targetHeight (img : Image) (resize : ResizeSettings) : Q :=
  if JS.ltb (maxWidth resize) (inject_Z (img_width img))
  then
    let ratio := maxWidth resize / inject_Z (img_width img) in
    inject_Z (img_height img) * ratio
  else inject_Z (img_height img).

(** ** processImage: watermark scale (lines 39-46, 64) *)

Definition scaleFactor (img : Image) (resize : ResizeSettings) : Q :=
  targetWidth img resize / 1000.

Definition actualFontSize (img : Image) (watermark : WatermarkSettings)
    (resize : ResizeSettings) : Q :=
  JS.Math_max (fontSize watermark * scaleFactor img resize) 12.

Definition effectivePadding (img : Image) (watermark : WatermarkSettings)
    (resize : ResizeSettings) : Q :=
  padding watermark * scaleFactor img resize.

(** ** The 2D drawing context *)

(** One entry of the current transformation.  [Rotate q] is a rotation by
    [q * Math.PI] radians: angles stay rational multiples of pi. *)
Inductive TransformOp : Set :=
| Translate (x y : Q)
| Rotate (halfTurns : Q).

Inductive Filter : Set :=
| filter_none
| filter_contrast (contrastValue : Q).

Inductive Baseline : Set := alphabetic | middle.

(** The drawing state that [save] pushes and [restore] pops.  [font] is the
    pixel size of the font string (weight and family are constants of the
    source). *)
Record DrawState : Set := mkDrawState {
  transform : list TransformOp;
  filter : Filter;
  globalAlpha : Q;
  fillStyle : string;
  font : Q;
  textBaseline : Baseline
}.

(** What has been drawn, each with the drawing state in force. *)
Inductive PaintOp : Set :=
| DrawImage (img : Image) (dx dy dw dh : Q) (st : DrawState)
| FillText (txt : string) (x y : Q) (st : DrawState).

Record Context2D : Set := mkContext {
  canvas_width : Q;
  canvas_height : Q;
  state : DrawState;
  saved : list DrawState;
  display : list PaintOp
}.

Definition defaultState : DrawState :=
  {| transform := []; filter := filter_none; globalAlpha := 1;
     fillStyle := "#000000"; font := 10; textBaseline := alphabetic |}.

(** [document.createElement('canvas')] with [canvas.width = w] and
    [canvas.height = h].  The two fields hold the numbers assigned; the
    element itself keeps their integer part, which nothing below reads. *)
Definition createCanvas (w h : Q) : Context2D :=
  {| canvas_width := w; canvas_height := h; state := defaultState;
     saved := []; display := [] |}.

Definition withState (f : DrawState -> DrawState) (ctx : Context2D) : Context2D :=
  {| canvas_width := canvas_width ctx; canvas_height := canvas_height ctx;
     state := f (state ctx); saved := saved ctx; display := display ctx |}.

Definition paint (op : DrawState -> PaintOp) (ctx : Context2D) : Context2D :=
  {| canvas_width := canvas_width ctx; canvas_height := canvas_height ctx;
     state := state ctx; saved := saved ctx;
     display := display ctx ++ [op (state ctx)] |}.

Module Ctx.

Definition save (ctx : Context2D) : Context2D :=
  {| canvas_width := canvas_width ctx; canvas_height := canvas_height ctx;
     state := state ctx; saved := state ctx :: saved ctx;
     display := display ctx |}.

(** [restore] on an empty stack does nothing. *)
Definition restore (ctx : Context2D) : Context2D :=
  match saved ctx with
  | [] => ctx
  | st :: rest =>
      {| canvas_width := canvas_width ctx; canvas_height := canvas_height ctx;
         state := st; saved := rest; display := display ctx |}
  end.

Definition pushTransform (op : TransformOp) : Context2D -> Context2D :=
  withState (fun st =>
    {| transform := transform st ++ [op]; filter := filter st;
       globalAlpha := globalAlpha st; fillStyle := fillStyle st;
       font := font st; textBaseline := textBaseline st |}).

Definition translate (x y : Q) : Context2D -> Context2D :=
  pushTransform (Translate x y).

Definition rotate (halfTurns : Q) : Context2D -> Context2D :=
  pushTransform (Rotate halfTurns).

Definition set_filter (f : Filter) : Context2D -> Context2D :=
  withState (fun st =>
    {| transform := transform st; filter := f;
       globalAlpha := globalAlpha st; fillStyle := fillStyle st;
       font := font st; textBaseline := textBaseline st |}).

Definition set_globalAlpha (a : Q) : Context2D -> Context2D :=
  withState (fun st =>
    {| transform := transform st; filter := filter st;
       globalAlpha := a; fillStyle := fillStyle st;
       font := font st; textBaseline := textBaseline st |}).

Definition set_fillStyle (c : string) : Context2D -> Context2D :=
  withState (fun st =>
    {| transform := transform st; filter := filter st;
       globalAlpha := globalAlpha st; fillStyle := c;
       font := font st; textBaseline := textBaseline st |}).

Definition set_font (px : Q) : Context2D -> Context2D :=
  withState (fun st =>
    {| transform := transform st; filter := filter st;
       globalAlpha := globalAlpha st; fillStyle := fillStyle st;
       font := px; textBaseline := textBaseline st |}).

Definition set_textBaseline (b : Baseline) : Context2D -> Context2D :=
  withState (fun st =>
    {| transform := transform st; filter := filter st;
       globalAlpha := globalAlpha st; fillStyle := fillStyle st;
       font := font st; textBaseline := b |}).

Definition drawImage (img : Image) (dx dy dw dh : Q) : Context2D -> Context2D :=
  paint (DrawImage img dx dy dw dh).

Definition fillText (txt : string) (x y : Q) : Context2D -> Context2D :=
  paint (FillText txt x y).

End Ctx.

(** ** The browser *)

(** A pixel of the backing store, and its value (packed RGBA). *)
Definition Point : Set := (Z * Z)%type.
Definition Pixel : Set := Z.

Record Host : Type := mkHost {
  (** whether [canvas.getContext('2d')] returns a context *)
  getContext : bool;
  (** [ctx.measureText(text).width] under a font of the given pixel size *)
  measureText : Q -> string -> Q;
  (** whether a drawing operation covers a pixel: the destination rectangle
      of an image, the glyphs of a text as transformed and filtered *)
  covers : PaintOp -> Point -> bool;
  (** the value a covered pixel takes when the operation is composited *)
  blend : PaintOp -> Point -> Pixel -> Pixel;
  (** [canvas.toDataURL(format, quality)] *)
  toDataURL : Context2D -> ImageFormat -> Q -> string;
  (** [n.toString(36)] *)
  toString36 : Q -> string;
  (** [URL.createObjectURL(file)] *)
  createObjectURL : File -> string
}.

(** The pixel a display list leaves at [p] on a cleared canvas: each
    operation is composited in turn and changes the pixels it covers only. *)
Definition pixelAt (h : Host) (ops : list PaintOp) (p : Point) : Pixel :=
  fold_left (fun px op => if covers h op p then blend h op p px else px) ops 0%Z.

(** ** processImage: text metrics (lines 44-46) *)

Definition textWidth (h : Host) (img : Image) (watermark : WatermarkSettings)
    (resize : ResizeSettings) : Q :=
  measureText h (actualFontSize img watermark resize) (text watermark).

Definition textHeight (img : Image) (watermark : WatermarkSettings)
    (resize : ResizeSettings) : Q :=
  actualFontSize img watermark resize.

(** ** processImage: drawWatermarkAt (lines 49-62) *)

Definition drawWatermarkAt (watermark : WatermarkSettings) (textWidth : Q)
    (x y : Q) (ctx : Context2D) : Context2D :=
  let ctx := Ctx.save ctx in
  let ctx := Ctx.translate x y ctx in
  let ctx := Ctx.rotate (rotation watermark / 180) ctx in
  let ctx :=
    if negb (Qeq_bool (contrast watermark) 0)
    then
      let contrastValue := 1 + contrast watermark / 100 in
      Ctx.set_filter (filter_contrast contrastValue) ctx
    else ctx in
  let ctx := Ctx.fillText (text watermark) (- textWidth / 2) 0 ctx in
  Ctx.restore ctx.

(** The drawing state in force when one instance is filled at anchor
    [(x, y)], starting from the state [st]. *)
Definition instanceState (watermark : WatermarkSettings) (st : DrawState)
    (a : Q * Q) : DrawState :=
  {| transform :=
       transform st ++ [Translate (fst a) (snd a); Rotate (rotation watermark / 180)];
     filter :=
       if negb (Qeq_bool (contrast watermark) 0)
       then filter_contrast (1 + contrast watermark / 100)
       else filter st;
     globalAlpha := globalAlpha st;
     fillStyle := fillStyle st;
     font := font st;
     textBaseline := textBaseline st |}.

(** ** Loops *)

(** The result of running a loop on a fuel budget. *)
Inductive Run (S : Type) : Type :=
| Done (s : S)
| Timeout (s : S).

Arguments Done {S} s.
Arguments Timeout {S} s.

Definition stateOf {S : Type} (r : Run S) : S :=
  match r with Done s | Timeout s => s end.

Definition isDone {S : Type} (r : Run S) : bool :=
  match r with Done _ => true | Timeout _ => false end.

(** [for (let x = x0; x < bound; x += step) body(x)], at most [fuel]
    executions of the body.  The sum is exact here; [Binary64.forQ] rounds
    it at every turn. *)
Fixpoint forQ {S : Type} (fuel : nat) (x bound step : Q)
    (body : Q -> S -> Run S) (s : S) : Run S :=
  match fuel with
  | O => if JS.ltb x bound then Timeout s else Done s
  | Datatypes.S n =>
      if JS.ltb x bound then
        match body x s with
        | Done s' => forQ n (x + step) bound step body s'
        | Timeout s' => Timeout s'
        end
      else Done s
  end.

(** *** The control of a loop, apart from its body *)

(** The loop variable after [k] increments. *)
Fixpoint loopValue (k : nat) (x step : Q) : Q :=
  match k with
  | O => x
  | Datatypes.S k' => loopValue k' (x + step) step
  end.

(** The values of the loop variable the body runs on, within the fuel. *)
Fixpoint loopValues (fuel : nat) (x bound step : Q) : list Q :=
  match fuel with
  | O => []
  | Datatypes.S n =>
      if JS.ltb x bound then x :: loopValues n (x + step) bound step else []
  end.

(** Whether the loop test fails within the fuel. *)
Fixpoint loopExits (fuel : nat) (x bound step : Q) : bool :=
  match fuel with
  | O => negb (JS.ltb x bound)
  | Datatypes.S n =>
      if JS.ltb x bound then loopExits n (x + step) bound step else true
  end.

(** The bodies run in sequence, up to the first that does not return. *)
Fixpoint foldRun {S : Type} (body : Q -> S -> Run S) (xs : list Q) (s : S) : Run S :=
  match xs with
  | [] => Done s
  | x :: rest =>
      match body x s with
      | Done s' => foldRun body rest s'
      | Timeout s' => Timeout s'
      end
  end.

(** ** processImage: placement (lines 66-108) *)

Definition Anchor : Set := (Q * Q)%type.

Definition gapX (textWidth tilingGap : Q) : Q := textWidth * (tilingGap / 100).
Definition gapY (textHeight tilingGap : Q) : Q := textHeight * (tilingGap / 100).
Definition stepX (textWidth tilingGap : Q) : Q := textWidth + gapX textWidth tilingGap.
Definition stepY (textHeight tilingGap : Q) : Q := textHeight + gapY textHeight tilingGap.

(** The [switch] of the non-tiled branch; [x] and [y] start at 0 and no
    [case] matches [TILED]. *)
Definition singleAnchor (pos : WatermarkPosition)
    (targetWidth targetHeight textWidth textHeight padding : Q) : Anchor :=
  match pos with
  | TOP_LEFT => (padding + textWidth / 2, padding + textHeight / 2)
  | TOP_RIGHT => (targetWidth - padding - textWidth / 2, padding + textHeight / 2)
  | BOTTOM_LEFT => (padding + textWidth / 2, targetHeight - padding - textHeight / 2)
  | BOTTOM_RIGHT =>
      (targetWidth - padding - textWidth / 2, targetHeight - padding - textHeight / 2)
  | CENTER => (targetWidth / 2, targetHeight / 2)
  | TILED => (0, 0)
  end.

Section Placement.

(** The placement code only calls the draw primitive; it is modelled over
    any state the primitive acts on. *)
Context {S : Type}.
Variable draw : Q -> Q -> S -> S.

Definition tileLoop (fuel : nat)
    (targetWidth targetHeight textWidth textHeight tilingGap : Q) (s : S) : Run S :=
  let stepX := stepX textWidth tilingGap in
  let stepY := stepY textHeight tilingGap in
  forQ fuel (- textWidth) (targetWidth + textWidth) stepX
    (fun x =>
       forQ fuel (- textHeight) (targetHeight + textHeight) stepY
         (fun y s => Done (draw x y s)))
    s.

Definition placeWatermark (fuel : nat) (pos : WatermarkPosition)
    (targetWidth targetHeight textWidth textHeight padding tilingGap : Q)
    (s : S) : Run S :=
  if WatermarkPosition_eqb pos TILED
  then tileLoop fuel targetWidth targetHeight textWidth textHeight tilingGap s
  else
    let '(x, y) :=
      singleAnchor pos targetWidth targetHeight textWidth textHeight padding in
    Done (draw x y s).

End Placement.

(** The anchors handed to the draw primitive, in order: the placement code
    run on a primitive that only records its arguments. *)
Definition record (x y : Q) (l : list Anchor) : list Anchor := l ++ [(x, y)].

Definition anchors (fuel : nat) (pos : WatermarkPosition)
    (targetWidth targetHeight textWidth textHeight padding tilingGap : Q)
    : Run (list Anchor) :=
  placeWatermark record fuel pos
    targetWidth targetHeight textWidth textHeight padding tilingGap [].

Definition mapRun {S T : Type} (f : S -> T) (r : Run S) : Run T :=
  match r with
  | Done s => Done (f s)
  | Timeout s => Timeout (f s)
  end.

(** The draw primitive applied to a list of anchors in turn. *)
Definition drawAll {S : Type} (draw : Q -> Q -> S -> S) (l : list Anchor) (s : S) : S :=
  fold_left (fun s a => draw (fst a) (snd a) s) l s.

(** The anchors of the tiling loops in closed form: every column of the
    grid when the inner loop leaves within the fuel, the first column as far
    as it got otherwise. *)
Definition tileGrid (fuel : nat)
    (targetWidth targetHeight textWidth textHeight tilingGap : Q) : Run (list Anchor) :=
  let xs := loopValues fuel (- textWidth) (targetWidth + textWidth)
              (stepX textWidth tilingGap) in
  let ys := loopValues fuel (- textHeight) (targetHeight + textHeight)
              (stepY textHeight tilingGap) in
  let exitsX := loopExits fuel (- textWidth) (targetWidth + textWidth)
                  (stepX textWidth tilingGap) in
  let exitsY := loopExits fuel (- textHeight) (targetHeight + textHeight)
                  (stepY textHeight tilingGap) in
  if exitsY then
    if exitsX then Done (list_prod xs ys) else Timeout (list_prod xs ys)
  else
    match xs with
    | [] => if exitsX then Done [] else Timeout []
    | x :: _ => Timeout (map (pair x) ys)
    end.

(** ** processImage: encoding and size (lines 110-114) *)

Definition dataUriHead (f : ImageFormat) : string :=
  "data:" ++ formatString f ++ ";base64,".

Definition estimateSize (processedUrl : string) (f : ImageFormat) : Z :=
  let head := JS.strlen (dataUriHead f) in
  JS.Math_round ((inject_Z (JS.strlen processedUrl) - inject_Z head) * 3 / 4).

(** The variant of index.tsx (line 146), which keeps the prefix. *)
Definition estimateSize_index_tsx (processedUrl : string) : Z :=
  JS.Math_round ((inject_Z (JS.strlen processedUrl) * 3) / 4).

(** ** processImage: the result id (line 117) *)

(** [s.substring(n)] *)
Definition substringFrom (n : nat) (s : string) : string :=
  substring n (String.length s - n) s.

Definition freshId (h : Host) (random : Q) : string :=
  substringFrom 7 (toString36 h random).

(** ** Promises *)

Inductive Reason : Set :=
| reason_message (msg : string)
| reason_event.          (* the ProgressEvent of [reader.onerror] *)

(** The eventual state of a promise. *)
Inductive Promise (A : Type) : Type :=
| Resolved (a : A)
| Rejected (e : Reason)
| Pending.

Arguments Resolved {A} a.
Arguments Rejected {A} e.
Arguments Pending {A}.

(** [Promise.all]: a rejection wins, else it waits for every input.  When
    several inputs reject, the browser keeps the reason of the one that
    rejects first in time; the inputs carry no time here and the first in
    list order is kept. *)
Fixpoint Promise_all {A : Type} (ps : list (Promise A)) : Promise (list A) :=
  match ps with
  | [] => Resolved []
  | p :: rest =>
      match p, Promise_all rest with
      | Rejected e, _ => Rejected e
      | _, Rejected e => Rejected e
      | Pending, _ => Pending
      | _, Pending => Pending
      | Resolved a, Resolved l => Resolved (a :: l)
      end
  end.

(** The anchors one invocation hands to [drawWatermarkAt]. *)
Definition watermarkAnchors (h : Host) (fuel : nat) (img : Image)
    (watermark : WatermarkSettings) (resize : ResizeSettings) : Run (list Anchor) :=
  anchors fuel (position watermark)
    (targetWidth img resize) (targetHeight img resize)
    (textWidth h img watermark resize) (textHeight img watermark resize)
    (effectivePadding img watermark resize) (tilingGap watermark).

(** Settings patched one field at a time, as the sidebar does. *)
Definition withPosition (p : WatermarkPosition) (w : WatermarkSettings)
    : WatermarkSettings :=
  {| text := text w; fontSize := fontSize w; color := color w;
     opacity := opacity w; position := p; padding := padding w;
     rotation := rotation w; tilingGap := tilingGap w; contrast := contrast w |}.

Definition withText (t : string) (w : WatermarkSettings) : WatermarkSettings :=
  {| text := t; fontSize := fontSize w; color := color w;
     opacity := opacity w; position := position w; padding := padding w;
     rotation := rotation w; tilingGap := tilingGap w; contrast := contrast w |}.

Definition withPadding (p : Q) (w : WatermarkSettings) : WatermarkSettings :=
  {| text := text w; fontSize := fontSize w; color := color w;
     opacity := opacity w; position := position w; padding := p;
     rotation := rotation w; tilingGap := tilingGap w; contrast := contrast w |}.


(** ** processImage *)

(** The canvas just before placement: sized, base layer drawn, watermark
    styling set (lines 28-42). *)
Definition baseLayer (img : Image) (watermark : WatermarkSettings)
    (resize : ResizeSettings) : Context2D :=
  let targetWidth := targetWidth img resize in
  let targetHeight := targetHeight img resize in
  let ctx := createCanvas targetWidth targetHeight in
  let ctx := Ctx.drawImage img 0 0 targetWidth targetHeight ctx in
  let ctx := Ctx.set_globalAlpha (opacity watermark) ctx in
  let ctx := Ctx.set_fillStyle (color watermark) ctx in
  let ctx := Ctx.set_font (actualFontSize img watermark resize) ctx in
  Ctx.set_textBaseline middle ctx.

(** The canvas after the watermark stage (lines 44-108). *)
Definition watermarked (h : Host) (fuel : nat) (img : Image)
    (watermark : WatermarkSettings) (resize : ResizeSettings) : Run Context2D :=
  let textWidth := textWidth h img watermark resize in
  let textHeight := textHeight img watermark resize in
  placeWatermark (drawWatermarkAt watermark textWidth) fuel (position watermark)
    (targetWidth img resize) (targetHeight img resize) textWidth textHeight
    (effectivePadding img watermark resize) (tilingGap watermark)
    (baseLayer img watermark resize).

(** Lines 110-124. *)
Definition buildResult (h : Host) (random : Q) (file : File) (img : Image)
    (resize : ResizeSettings) (ctx : Context2D) : ProcessedImage :=
  let processedUrl := toDataURL h ctx (format resize) (quality resize) in
  {| id := freshId h random;
     originalName := name file;
     previewUrl := createObjectURL h file;
     processedUrl := processedUrl;
     width := JS.Math_round (targetWidth img resize);
     height := JS.Math_round (targetHeight img resize);
     size := estimateSize processedUrl (format resize) |}.

(** [processImage(file, watermark, resize)].  [random] is what
    [Math.random()] returns in this invocation.  [None]: the fuel ran out
    inside the tiling loops, the callback has not returned. *)
Definition processImage (h : Host) (fuel : nat) (random : Q) (file : File)
    (watermark : WatermarkSettings) (resize : ResizeSettings)
    : option (Promise ProcessedImage) :=
  if negb (readable file) then Some (Rejected reason_event)
  else
    match decoded file with
    | None => Some Pending           (* [img.onload] never fires *)
    | Some img =>
        if negb (getContext h)
        then Some (Rejected (reason_message "Could not get canvas context"))
        else
          match watermarked h fuel img watermark resize with
          | Timeout _ => None
          | Done ctx => Some (Resolved (buildResult h random file img resize ctx))
          end
    end.

(** ** App.tsx: handleProcessAll (lines 40-54) *)

Record AppState : Type := mkApp {
  files : list FileData;
  processedImages : list ProcessedImage;
  isProcessing : bool;
  console : list Reason            (* what [console.error] has logged *)
}.

Definition setProcessedImages (results : list ProcessedImage) (st : AppState) : AppState :=
  {| files := files st; processedImages := results;
     isProcessing := isProcessing st; console := console st |}.

Definition setIsProcessing (b : bool) (st : AppState) : AppState :=
  {| files := files st; processedImages := processedImages st;
     isProcessing := b; console := console st |}.

Definition console_error (e : Reason) (st : AppState) : AppState :=
  {| files := files st; processedImages := processedImages st;
     isProcessing := isProcessing st; console := console st ++ [e] |}.

(** [files.map(f => processImage(f.file, watermark, resize))]; the [i]-th
    invocation receives the draw [randoms i]. *)
Fixpoint processFiles (h : Host) (fuel : nat) (randoms : nat -> Q) (i : nat)
    (fs : list FileData) (watermark : WatermarkSettings) (resize : ResizeSettings)
    : option (list (Promise ProcessedImage)) :=
  match fs with
  | [] => Some []
  | f :: rest =>
      match processImage h fuel (randoms i) (file f) watermark resize,
            processFiles h fuel randoms (Datatypes.S i) rest watermark resize with
      | Some p, Some ps => Some (p :: ps)
      | _, _ => None
      end
  end.

(** The state once nothing more can happen.  [None]: an invocation did not
    return within the fuel. *)
Definition handleProcessAll (h : Host) (fuel : nat) (randoms : nat -> Q)
    (watermark : WatermarkSettings) (resize : ResizeSettings) (st : AppState)
    : option AppState :=
  if Nat.eqb (List.length (files st)) 0 then Some st
  else
    let st := setIsProcessing true st in
    match processFiles h fuel randoms 0 (files st) watermark resize with
    | None => None
    | Some promises =>
        match Promise_all promises with
        | Resolved results =>
            Some (setIsProcessing false (setProcessedImages results st))
        | Rejected error =>
            Some (setIsProcessing false (console_error error st))
        | Pending => Some st       (* the [await] is never resumed *)
        end
    end.

(** ** App.tsx: handleFilesAdded (lines 32-38) and clearAll (lines 62-65) *)

(** [newFiles.map(file => ({ file, id: Math.random().toString(36).substring(7) }))];
    the [i]-th file receives the draw [randoms i]. *)
Fixpoint tagFiles (h : Host) (randoms : nat -> Q) (i : nat) (newFiles : list File)
    : list FileData :=
  match newFiles with
  | [] => []
  | f :: rest =>
      mkFileData f (freshId h (randoms i)) :: tagFiles h randoms (Datatypes.S i) rest
  end.

Definition handleFilesAdded (h : Host) (randoms : nat -> Q) (newFiles : list File)
    (st : AppState) : AppState :=
  let fileData := tagFiles h randoms 0 newFiles in
  {| files := files st ++ fileData; processedImages := processedImages st;
     isProcessing := isProcessing st; console := console st |}.

Definition clearAll (st : AppState) : AppState :=
  {| files := []; processedImages := [];
     isProcessing := isProcessing st; console := console st |}.

(** ** components/ImageGrid.tsx: downloads (lines 21-56) *)

(** A non-negative integer in a template literal. *)
Definition decimal (n : nat) : string := NilEmpty.string_of_uint (Nat.to_uint n).

(** [s.split(sep)] for a one-character separator. *)
Fixpoint split (sep : ascii) (s : string) : list string :=
  match s with
  | EmptyString => [EmptyString]
  | String c rest =>
      match split sep rest with
      | [] => [String c EmptyString]
      | piece :: pieces =>
          if Ascii.eqb c sep then EmptyString :: piece :: pieces
          else String c piece :: pieces
      end
  end.

(** [link.download] of [handleDownload]. *)
Definition downloadName (img : ProcessedImage) : string :=
  "WEBSNAP_" ++ originalName img.

(** [img.processedUrl.split(',')[1]]; [None] is [undefined]. *)
Definition base64Data (img : ProcessedImage) : option string :=
  nth_error (split "," (processedUrl img)) 1.

Definition archiveName (index : nat) (img : ProcessedImage) : string :=
  "WEBSNAP_" ++ decimal (index + 1) ++ "_" ++ originalName img.

(** The calls [zip.file(fileName, base64Data, { base64: true })] that
    [images.forEach((img, index) => ...)] makes, in order, from [index] on. *)
Fixpoint archiveEntries (index : nat) (images : list ProcessedImage)
    : list (string * option string) :=
  match images with
  | [] => []
  | img :: rest =>
      (archiveName index img, base64Data img)
        :: archiveEntries (Datatypes.S index) rest
  end.

(** ** JavaScript numbers as doubles

    The definitions above compute on exact rationals.  A rounded integer or
    the number of turns of a loop can depend on the last bit of a quotient or
    of a running sum; for these the arithmetic of the code is followed to the
    bit.  A JavaScript number is an IEEE 754 binary64 value: every [+], [*]
    and [/] returns the exact result rounded to the nearest number with a
    53-bit significand, ties to the even significand.  Comparison, negation,
    [Math.max] and [Math.round] are exact on such numbers.  The exponent is
    left unbounded: the sizes, steps and coordinates of this program stay far
    from the largest and the smallest double. *)

Module Binary64.

Definition pow2 (z : Z) : Q := 2 ^ z.

(** The binary exponent of a positive number: [2^e <= q < 2^(e+1)]. *)
Definition expo (q : Q) : Z :=
  let l := (Z.log2 (Qnum q) - Z.log2 (Zpos (Qden q)))%Z in
  if Qle_bool (pow2 l) q then l else (l - 1)%Z.

(** The nearest integer, ties to even. *)
Definition rne (x : Q) : Z :=
  let f := Qfloor x in
  match Qcompare (x - inject_Z f) (1 # 2) with
  | Lt => f
  | Gt => (f + 1)%Z
  | Eq => if Z.even f then f else (f + 1)%Z
  end.

(** The nearest number [m * 2^(e-52)] with an integer [m], for [q > 0] of
    exponent [e]. *)
Definition nearest (q : Q) : Q :=
  let e := expo q in
  inject_Z (rne (q * pow2 (52 - e))) * pow2 (e - 52).

(** The double nearest to [q]. *)
Definition fl (q : Q) : Q :=
  match Qcompare q 0 with
  | Eq => 0
  | Gt => Qred (nearest q)
  | Lt => Qred (- nearest (- q))
  end.


Definition add (a b : Q) : Q := fl (a + b).
Definition mul (a b : Q) : Q := fl (a * b).
Definition div (a b : Q) : Q := fl (a / b).

(** *** processImage: target size (lines 19-26); [targetWidth] involves no
    arithmetic and is the one above. *)

Definition targetHeight (img : Image) (resize : ResizeSettings) : Q :=
  if JS.ltb (maxWidth resize) (inject_Z (img_width img))
  then let ratio := div (maxWidth resize) (inject_Z (img_width img)) in
       mul (inject_Z (img_height img)) ratio
  else inject_Z (img_height img).

(** *** processImage: the result (lines 110-124) *)

Definition buildResult (h : Host) (random : Q) (file : File) (img : Image)
    (resize : ResizeSettings) (ctx : Context2D) : ProcessedImage :=
  let processedUrl := toDataURL h ctx (format resize) (quality resize) in
  {| id := freshId h random;
     originalName := name file;
     previewUrl := createObjectURL h file;
     processedUrl := processedUrl;
     width := JS.Math_round (targetWidth img resize);
     height := JS.Math_round (targetHeight img resize);
     size := estimateSize processedUrl (format resize) |}.

(** *** processImage: scale and text metrics (lines 39-46) *)

Definition scaleFactor (img : Image) (resize : ResizeSettings) : Q :=
  div (targetWidth img resize) 1000.

Definition actualFontSize (img : Image) (watermark : WatermarkSettings)
    (resize : ResizeSettings) : Q :=
  JS.Math_max (mul (fontSize watermark) (scaleFactor img resize)) 12.

(** [metrics.width], the double the browser hands over. *)
Definition textWidth (h : Host) (img : Image) (watermark : WatermarkSettings)
    (resize : ResizeSettings) : Q :=
  fl (measureText h (actualFontSize img watermark resize) (text watermark)).

Definition textHeight (img : Image) (watermark : WatermarkSettings)
    (resize : ResizeSettings) : Q :=
  actualFontSize img watermark resize.

(** *** processImage: tiling (lines 66-80) *)

Definition gapX (textWidth tilingGap : Q) : Q := mul textWidth (div tilingGap 100).
Definition gapY (textHeight tilingGap : Q) : Q := mul textHeight (div tilingGap 100).
Definition stepX (textWidth tilingGap : Q) : Q := add textWidth (gapX textWidth tilingGap).
Definition stepY (textHeight tilingGap : Q) : Q := add textHeight (gapY textHeight tilingGap).

(** [for (let x = x0; x < bound; x += step) body(x)]: the loop variable is
    the running sum, rounded at every turn. *)
Fixpoint forQ {S : Type} (fuel : nat) (x bound step : Q)
    (body : Q -> S -> Run S) (s : S) : Run S :=
  match fuel with
  | O => if JS.ltb x bound then Timeout s else Done s
  | Datatypes.S n =>
      if JS.ltb x bound then
        match body x s with
        | Done s' => forQ n (add x step) bound step body s'
        | Timeout s' => Timeout s'
        end
      else Done s
  end.

(** The loop variable after [k] increments. *)
Fixpoint loopValue (k : nat) (x step : Q) : Q :=
  match k with
  | O => x
  | Datatypes.S k' => loopValue k' (add x step) step
  end.

(** The values of the loop variable the body runs on, within the fuel. *)
Fixpoint loopValues (fuel : nat) (x bound step : Q) : list Q :=
  match fuel with
  | O => []
  | Datatypes.S n =>
      if JS.ltb x bound then x :: loopValues n (add x step) bound step else []
  end.

(** Whether the loop test fails within the fuel. *)
Fixpoint loopExits (fuel : nat) (x bound step : Q) : bool :=
  match fuel with
  | O => negb (JS.ltb x bound)
  | Datatypes.S n =>
      if JS.ltb x bound then loopExits n (add x step) bound step else true
  end.

(** Lines 70-80, over any draw primitive. *)
Definition tileLoop {S : Type} (draw : Q -> Q -> S -> S) (fuel : nat)
    (targetWidth targetHeight textWidth textHeight tilingGap : Q) (s : S) : Run S :=
  let stepX := stepX textWidth tilingGap in
  let stepY := stepY textHeight tilingGap in
  forQ fuel (- textWidth) (add targetWidth textWidth) stepX
    (fun x =>
       forQ fuel (- textHeight) (add targetHeight textHeight) stepY
         (fun y s => Done (draw x y s)))
    s.

(** The anchors of the tiling loops in closed form: every column of the
    grid when the inner loop leaves within the fuel, the first column as far
    as it got otherwise. *)
Definition tileGrid (fuel : nat)
    (targetWidth targetHeight textWidth textHeight tilingGap : Q) : Run (list Anchor) :=
  let xs := loopValues fuel (- textWidth) (add targetWidth textWidth)
              (stepX textWidth tilingGap) in
  let ys := loopValues fuel (- textHeight) (add targetHeight textHeight)
              (stepY textHeight tilingGap) in
  let exitsX := loopExits fuel (- textWidth) (add targetWidth textWidth)
                  (stepX textWidth tilingGap) in
  let exitsY := loopExits fuel (- textHeight) (add targetHeight textHeight)
                  (stepY textHeight tilingGap) in
  if exitsY then
    if exitsX then Done (list_prod xs ys) else Timeout (list_prod xs ys)
  else
    match xs with
    | [] => if exitsX then Done [] else Timeout []
    | x :: _ => Timeout (map (pair x) ys)
    end.





End Binary64.

(** ** Sample inputs *)

Module Sample.

Definition digit36 (d : Z) : ascii :=
  match get (Z.to_nat d) "0123456789abcdefghijklmnopqrstuvwxyz" with
  | Some c => c
  | None => "?"%char
  end.

(** The first [n] base-36 digits of a fraction, stopping when nothing is left. *)
Fixpoint fraction36 (n : nat) (q : Q) : string :=
  match n with
  | O => EmptyString
  | Datatypes.S n' =>
      if Qeq_bool q 0 then EmptyString
      else
        let d := Qfloor (q * 36) in
        String (digit36 d) (fraction36 n' (q * 36 - inject_Z d))
  end.

(** A browser whose font is monospaced, six tenths of the pixel size per
    character, whose texts cover the diagonal pixels, whose encoder emits a
    four-character payload, and which prints a number of [0, 1) in base 36
    with up to eleven digits. *)
Definition host : Host :=
  {| getContext := true;
     measureText := fun px txt => px * (6 # 10) * inject_Z (JS.strlen txt);
     covers := fun op p =>
       match op with
       | DrawImage _ _ _ _ _ _ => true
       | FillText _ _ _ _ => Z.eqb (fst p) (snd p)
       end;
     blend := fun _ _ px => (px + 1)%Z;
     toDataURL := fun _ f _ => (dataUriHead f ++ "AAAA")%string;
     toString36 := fun q => ("0." ++ fraction36 11 q)%string;
     createObjectURL := fun f => ("blob:" ++ name f)%string |}.

(** The defaults of App.tsx (the text without its copyright sign). *)
Definition watermark : WatermarkSettings :=
  {| text := "WEBSNAP"; fontSize := 24; color := "#000000"; opacity := 8 # 10;
     position := BOTTOM_RIGHT; padding := 20; rotation := 0; tilingGap := 50;
     contrast := 0 |}.

Definition resize : ResizeSettings :=
  {| maxWidth := 1200; quality := 85 # 100; format := image_jpeg |}.

Definition photo (nm : string) (w h : Z) : File :=
  {| name := nm; readable := true; decoded := Some (mkImage w h) |}.

(** Bytes that no decoder accepts. *)
Definition corrupt (nm : string) : File :=
  {| name := nm; readable := true; decoded := None |}.

(** A file the reader fails on. *)
Definition unreadable (nm : string) : File :=
  {| name := nm; readable := false; decoded := None |}.

(** The draws of [Math.random()], one per invocation. *)
Definition randoms (n : nat) : Q := 1 # Pos.of_nat (6 * n + 5).

(** A batch of three files about to be processed, the second one [bad]. *)
Definition batch (bad : File) : AppState :=
  {| files := [ mkFileData (photo "a.jpg" 800 600) "a";
                mkFileData bad "b";
                mkFileData (photo "c.jpg" 640 480) "c" ];
     processedImages := [];
     isProcessing := false;
     console := [] |}.

End Sample.

(** * Properties *)

(** ** Numbers *)

(** [lra] after the divisions by the constants of the source are turned
    into multiplications. *)
Ltac qlra :=
  unfold Qdiv in *;
  change (/ 2) with (1 # 2) in *;
  change (/ 4) with (1 # 4) in *;
  change (/ 100) with (1 # 100) in *;
  change (/ 1000) with (1 # 1000) in *;
  lra.

Lemma ltb_lt (a b : Q) : JS.ltb a b = true <-> a < b.
Proof.
  unfold JS.ltb. rewrite negb_true_iff.
  destruct (Qle_bool b a) eqn:E.
  - apply Qle_bool_iff in E. split; [discriminate | intro; lra].
  - split; [intros _ | reflexivity].
    destruct (Qlt_le_dec a b) as [L | L]; [exact L |].
    apply Qle_bool_iff in L. congruence.
Qed.

Lemma ltb_ge (a b : Q) : JS.ltb a b = false <-> b <= a.
Proof.
  destruct (JS.ltb a b) eqn:E.
  - apply ltb_lt in E. split; [discriminate | intro; lra].
  - split; [intros _ | reflexivity].
    destruct (Qlt_le_dec a b) as [L | L]; [| exact L].
    apply ltb_lt in L. congruence.
Qed.

Lemma Math_max_cases (a b : Q) :
  (a <= b /\ JS.Math_max a b = b) \/ (b < a /\ JS.Math_max a b = a).
Proof.
  unfold JS.Math_max. destruct (Qle_bool a b) eqn:E.
  - left. split; [now apply Qle_bool_iff | reflexivity].
  - right. split; [| reflexivity].
    destruct (Qlt_le_dec b a) as [L | L]; [exact L |].
    apply Qle_bool_iff in L. congruence.
Qed.

Lemma Math_round_inject_Z (z : Z) : JS.Math_round (inject_Z z) = z.
Proof.
  unfold JS.Math_round.
  assert (L : (z <= Qfloor (inject_Z z + (1 # 2)))%Z).
  { rewrite <- (Qfloor_Z z) at 1. apply Qfloor_resp_le. lra. }
  assert (U : (Qfloor (inject_Z z + (1 # 2)) < z + 1)%Z).
  { rewrite Zlt_Qlt. rewrite inject_Z_plus.
    pose proof (Qfloor_le (inject_Z z + (1 # 2))).
    change (inject_Z 1) with 1. lra. }
  lia.
Qed.

Lemma Math_round_near (x : Q) :
  x - (1 # 2) < inject_Z (JS.Math_round x) <= x + (1 # 2).
Proof.
  unfold JS.Math_round.
  pose proof (Qfloor_le (x + (1 # 2))) as L.
  pose proof (Qlt_floor (x + (1 # 2))) as U.
  rewrite inject_Z_plus in U. change (inject_Z 1) with 1 in U.
  split; lra.
Qed.

(** ** What a resolved invocation went through *)

Lemma processImage_resolved (h : Host) (fuel : nat) (random : Q) (f : File)
    (watermark : WatermarkSettings) (resize : ResizeSettings) (r : ProcessedImage) :
  processImage h fuel random f watermark resize = Some (Resolved r) ->
  exists img ctx,
    decoded f = Some img /\
    watermarked h fuel img watermark resize = Done ctx /\
    r = buildResult h random f img resize ctx.
Proof.
  unfold processImage.
  destruct (readable f); simpl; [| discriminate].
  destruct (decoded f) as [img |]; [| discriminate].
  destruct (getContext h); simpl; [| discriminate].
  destruct (watermarked h fuel img watermark resize) as [ctx | ctx] eqn:E;
    [| discriminate].
  intros [= <-]. now exists img, ctx.
Qed.

(** ** Resize *)

Lemma resize_keep (img : Image) (resize : ResizeSettings) :
  inject_Z (img_width img) <= maxWidth resize ->
  targetWidth img resize = inject_Z (img_width img) /\
  targetHeight img resize = inject_Z (img_height img).
Proof.
  intro L. apply ltb_ge in L. unfold targetWidth, targetHeight.
  now rewrite L.
Qed.

Lemma resize_clamp (img : Image) (resize : ResizeSettings) :
  maxWidth resize < inject_Z (img_width img) ->
  targetWidth img resize = maxWidth resize /\
  targetHeight img resize =
    inject_Z (img_height img) * (maxWidth resize / inject_Z (img_width img)).
Proof.
  intro L. apply ltb_lt in L. unfold targetWidth, targetHeight.
  now rewrite L.
Qed.

(** ** Watermark scale *)

(** C6.  In every invocation [scaleFactor = targetWidth / 1000],
    [actualFontSize = Math.max(fontSize * scaleFactor, 12)], which is never
    below 12 nor below the scaled size and is one of the two, and the padding
    used for placement is [padding * scaleFactor].  The font set on the
    context and the text height are that font size. *)
Theorem watermark_scale :
  forall (img : Image) (watermark : WatermarkSettings) (resize : ResizeSettings),
    let s := scaleFactor img resize in
    let a := actualFontSize img watermark resize in
    s = targetWidth img resize / 1000 /\
    a = JS.Math_max (fontSize watermark * s) 12 /\
    12 <= a /\
    fontSize watermark * s <= a /\
    (a = 12 \/ a = fontSize watermark * s) /\
    effectivePadding img watermark resize = padding watermark * s /\
    font (state (baseLayer img watermark resize)) = a /\
    textHeight img watermark resize = a.
Proof.
  intros img watermark resize s a.
  repeat split; try reflexivity; subst a; unfold actualFontSize; fold s;
    destruct (Math_max_cases (fontSize watermark * s) 12) as [[L ->] | [L ->]];
    try lra; auto.
Qed.

(** ** Loops *)

Lemma forQ_control {S : Type} (body : Q -> S -> Run S) (bound step : Q) :
  forall (fuel : nat) (x : Q) (s : S),
    forQ fuel x bound step body s =
    match foldRun body (loopValues fuel x bound step) s with
    | Done s' => if loopExits fuel x bound step then Done s' else Timeout s'
    | Timeout s' => Timeout s'
    end.
Proof.
  induction fuel as [| n IH]; intros x s; simpl.
  - now destruct (JS.ltb x bound).
  - destruct (JS.ltb x bound); simpl; [| reflexivity].
    destruct (body x s) as [s' | s']; [apply IH | reflexivity].
Qed.

Lemma foldRun_total {S : Type} (f : Q -> S -> S) (xs : list Q) :
  forall s : S,
    foldRun (fun x s => Done (f x s)) xs s = Done (fold_left (fun s x => f x s) xs s).
Proof.
  induction xs as [| x xs IH]; intro s; simpl; [reflexivity | apply IH].
Qed.

Lemma loopValue_succ (k : nat) (step : Q) :
  forall x, loopValue (S k) x step = loopValue k x step + step.
Proof.
  induction k as [| k IH]; intro x; [reflexivity |].
  change (loopValue (S (S k)) x step) with (loopValue (S k) (x + step) step).
  rewrite IH. reflexivity.
Qed.

Lemma loopValue_linear (k : nat) (x step : Q) :
  loopValue k x step == x + inject_Z (Z.of_nat k) * step.
Proof.
  induction k as [| k IH].
  - simpl. change (inject_Z 0) with 0. ring.
  - rewrite loopValue_succ, IH, Nat2Z.inj_succ. unfold Z.succ.
    rewrite inject_Z_plus. change (inject_Z 1) with 1. ring.
Qed.

Lemma loopValue_mono (step : Q) (x : Q) (i k : nat) :
  0 <= step -> (i <= k)%nat -> loopValue i x step <= loopValue k x step.
Proof.
  intros Hs Hik. induction Hik as [| k _ IH]; [lra |].
  rewrite loopValue_succ. lra.
Qed.

Lemma loopValues_nth (bound step : Q) :
  forall (fuel : nat) (x : Q) (i : nat) (v : Q),
    nth_error (loopValues fuel x bound step) i = Some v ->
    v = loopValue i x step /\ v < bound.
Proof.
  induction fuel as [| n IH]; intros x i v; simpl.
  - destruct i; discriminate.
  - destruct (JS.ltb x bound) eqn:E; [| destruct i; discriminate].
    destruct i as [| i]; simpl.
    + intros [= <-]. split; [reflexivity | now apply ltb_lt].
    + apply IH.
Qed.

Lemma loopValues_reach (bound step : Q) :
  forall (fuel : nat) (x : Q) (i : nat),
    (i < fuel)%nat ->
    (forall k, (k <= i)%nat -> loopValue k x step < bound) ->
    nth_error (loopValues fuel x bound step) i = Some (loopValue i x step).
Proof.
  induction fuel as [| n IH]; intros x i Hi Hk; [lia |].
  simpl. pose proof (Hk O (Nat.le_0_l i)) as H0. simpl in H0.
  apply ltb_lt in H0. rewrite H0.
  destruct i as [| i]; [reflexivity |].
  simpl. apply IH; [lia |].
  intros k Hki. apply (Hk (S k)). lia.
Qed.

Lemma loopValues_In (bound step : Q) (fuel : nat) (x v : Q) :
  In v (loopValues fuel x bound step) ->
  exists i, v = loopValue i x step /\ v < bound.
Proof.
  intro H. apply In_nth_error in H as [i H].
  exists i. eapply loopValues_nth, H.
Qed.

(** A loop whose step is positive leaves through its test. *)
Lemma loopExits_positive (bound step : Q) :
  0 < step ->
  forall x, exists N, forall fuel, (N <= fuel)%nat -> loopExits fuel x bound step = true.
Proof.
  intros Hs x.
  (* the distance to the bound, in steps *)
  set (d := Z.to_nat (Qceiling ((bound - x) / step))).
  assert (Hd : bound <= x + inject_Z (Z.of_nat d) * step).
  { assert (C : (bound - x) / step <= inject_Z (Z.of_nat d)).
    { eapply Qle_trans; [apply Qle_ceiling |].
      rewrite <- Zle_Qle. unfold d. lia. }
    apply (Qmult_le_r _ _ step Hs) in C.
    assert (E : (bound - x) / step * step == bound - x) by (field; lra).
    lra. }
  clearbody d. revert x Hd.
  induction d as [| d IH]; intros x Hd.
  - exists O. intros fuel _.
    assert (G : JS.ltb x bound = false).
    { apply ltb_ge. change (inject_Z (Z.of_nat 0)) with 0 in Hd. lra. }
    destruct fuel; simpl; now rewrite G.
  - destruct (IH (x + step)) as [N HN].
    { rewrite Nat2Z.inj_succ in Hd. unfold Z.succ in Hd.
      rewrite inject_Z_plus in Hd. change (inject_Z 1) with 1 in Hd. lra. }
    exists (S N). intros fuel Hf.
    destruct fuel as [| fuel]; [lia |].
    simpl. destruct (JS.ltb x bound); [apply HN; lia | reflexivity].
Qed.

(** A loop that does not advance and whose test holds never leaves. *)
Lemma forQ_stuck {S : Type} (body : Q -> S -> Run S) (bound step : Q) :
  step == 0 ->
  forall (fuel : nat) (x : Q) (s : S),
    x < bound -> isDone (forQ fuel x bound step body s) = false.
Proof.
  intros Hs. induction fuel as [| n IH]; intros x s Hx; simpl.
  - apply ltb_lt in Hx. now rewrite Hx.
  - pose proof Hx as Hx'. apply ltb_lt in Hx'. rewrite Hx'.
    destruct (body x s) as [s' | s']; [| reflexivity].
    apply IH. lra.
Qed.

(** ** Placement *)

Section PlacementFacts.

Context {S : Type}.
Variable draw : Q -> Q -> S -> S.

Lemma drawAll_column (x : Q) (ys : list Q) :
  forall s, drawAll draw (map (pair x) ys) s = fold_left (fun s y => draw x y s) ys s.
Proof.
  unfold drawAll. induction ys as [| y ys IH]; intro s; simpl; [reflexivity | apply IH].
Qed.

Lemma drawAll_app (l1 l2 : list Anchor) (s : S) :
  drawAll draw (l1 ++ l2) s = drawAll draw l2 (drawAll draw l1 s).
Proof. apply fold_left_app. Qed.

(** The columns run one after the other when each of them returns. *)
Lemma foldRun_columns (ys : list Q) (xs : list Q) :
  forall s,
    foldRun (fun x s => Done (fold_left (fun s y => draw x y s) ys s)) xs s =
    Done (drawAll draw (list_prod xs ys) s).
Proof.
  induction xs as [| x xs IH]; intro s; simpl; [reflexivity |].
  rewrite IH, drawAll_app, drawAll_column. reflexivity.
Qed.

(** The tiling loops draw exactly the anchors of [tileGrid], in order. *)
Lemma tileLoop_grid (fuel : nat) (W H tw th g : Q) (s : S) :
  tileLoop draw fuel W H tw th g s =
  mapRun (fun l => drawAll draw l s) (tileGrid fuel W H tw th g).
Proof.
  unfold tileLoop, tileGrid.
  rewrite forQ_control.
  set (xs := loopValues fuel (- tw) (W + tw) (stepX tw g)).
  set (ys := loopValues fuel (- th) (H + th) (stepY th g)).
  set (ex := loopExits fuel (- tw) (W + tw) (stepX tw g)).
  set (ey := loopExits fuel (- th) (H + th) (stepY th g)).
  assert (Inner : forall x s0,
    forQ fuel (- th) (H + th) (stepY th g) (fun y s1 => Done (draw x y s1)) s0 =
    if ey then Done (fold_left (fun s1 y => draw x y s1) ys s0)
    else Timeout (fold_left (fun s1 y => draw x y s1) ys s0)).
  { intros x s0. rewrite forQ_control, foldRun_total. reflexivity. }
  destruct ey.
  - assert (E : foldRun
      (fun x => forQ fuel (- th) (H + th) (stepY th g)
                  (fun y s1 => Done (draw x y s1))) xs s
      = Done (drawAll draw (list_prod xs ys) s)).
    { rewrite <- foldRun_columns. clearbody xs. revert s.
      induction xs as [| x xs' IH]; intro s; simpl; [reflexivity |].
      rewrite Inner. apply IH. }
    rewrite E. now destruct ex.
  - destruct xs as [| x xs']; simpl.
    + now destruct ex.
    + rewrite Inner. simpl. now rewrite drawAll_column.
Qed.

End PlacementFacts.

Lemma drawAll_record (l : list Anchor) :
  forall l0, drawAll record l l0 = l0 ++ l.
Proof.
  unfold drawAll, record.
  induction l as [| a l IH]; intro l0; simpl.
  - now rewrite app_nil_r.
  - rewrite IH, <- app_assoc. now destruct a.
Qed.

Lemma mapRun_id {S : Type} (f : S -> S) (r : Run S) :
  (forall s, f s = s) -> mapRun f r = r.
Proof. intro H. destruct r; simpl; now rewrite H. Qed.

Lemma anchors_tiled (fuel : nat) (W H tw th p g : Q) :
  anchors fuel TILED W H tw th p g = tileGrid fuel W H tw th g.
Proof.
  unfold anchors, placeWatermark. simpl.
  rewrite tileLoop_grid. apply mapRun_id. intro l. apply drawAll_record.
Qed.

(** Whatever the primitive, the placement code applies it to the recorded
    anchors, in order, and returns exactly when the recording run does. *)
Lemma placeWatermark_anchors {S : Type} (draw : Q -> Q -> S -> S)
    (fuel : nat) (pos : WatermarkPosition) (W H tw th p g : Q) (s : S) :
  placeWatermark draw fuel pos W H tw th p g s =
  mapRun (fun l => drawAll draw l s) (anchors fuel pos W H tw th p g).
Proof.
  destruct pos; try reflexivity.
  rewrite anchors_tiled. unfold placeWatermark. simpl. apply tileLoop_grid.
Qed.

Lemma watermarked_anchors (h : Host) (fuel : nat) (img : Image)
    (watermark : WatermarkSettings) (resize : ResizeSettings) :
  watermarked h fuel img watermark resize =
  mapRun (fun l => drawAll (drawWatermarkAt watermark (textWidth h img watermark resize))
                     l (baseLayer img watermark resize))
         (watermarkAnchors h fuel img watermark resize).
Proof. apply placeWatermark_anchors. Qed.

(** ** Single placement *)

(** C5.  In every non-tiled mode one anchor is handed to the draw
    primitive and it is the one of the table, with [W x H] the target size,
    [p] the scaled padding, [textW] the measured width and [textH] the
    effective font size; the center anchor is [(W/2, H/2)] whatever the
    padding.  For a 2000x1000 image, [maxWidth] 1000, text "X", bottom-right,
    padding 30 and font size 32: scale factor 1, font size 32 and anchor
    [(1000 - 30 - textW/2, 500 - 30 - 16)]. *)
Theorem single_anchor_table :
  forall (h : Host) (fuel : nat) (img : Image)
         (watermark : WatermarkSettings) (resize : ResizeSettings),
    let W := targetWidth img resize in
    let H := targetHeight img resize in
    let p := effectivePadding img watermark resize in
    let textW := textWidth h img watermark resize in
    let textH := textHeight img watermark resize in
    let at_ pos := watermarkAnchors h fuel img (withPosition pos watermark) resize in
    textH = actualFontSize img watermark resize /\
    at_ TOP_LEFT = Done [(p + textW / 2, p + textH / 2)] /\
    at_ TOP_RIGHT = Done [(W - p - textW / 2, p + textH / 2)] /\
    at_ BOTTOM_LEFT = Done [(p + textW / 2, H - p - textH / 2)] /\
    at_ BOTTOM_RIGHT = Done [(W - p - textW / 2, H - p - textH / 2)] /\
    at_ CENTER = Done [(W / 2, H / 2)] /\
    (forall q : Q,
       watermarkAnchors h fuel img (withPadding q (withPosition CENTER watermark)) resize
       = Done [(W / 2, H / 2)]) /\
    (forall (col : string) (op rot gap con qual : Q) (fmt : ImageFormat),
       let img0 := mkImage 2000 1000 in
       let rs := mkResize 1000 qual fmt in
       let wm := mkWatermark "X" 32 col op BOTTOM_RIGHT 30 rot gap con in
       exists x y : Q,
         watermarkAnchors h fuel img0 wm rs = Done [(x, y)] /\
         scaleFactor img0 rs == 1 /\
         actualFontSize img0 wm rs == 32 /\
         x == 1000 - 30 - textWidth h img0 wm rs / 2 /\
         y == 500 - 30 - 16).
Proof.
  intros h fuel img watermark resize W H p textW textH at_.
  repeat split; try reflexivity.
  intros col op rot gap con qual fmt img0 rs wm.
  assert (Es : scaleFactor img0 rs == 1) by reflexivity.
  assert (Ea : actualFontSize img0 wm rs == 32) by reflexivity.
  assert (Ep : effectivePadding img0 wm rs == 30) by reflexivity.
  assert (Ew : targetWidth img0 rs == 1000) by reflexivity.
  assert (Eh : targetHeight img0 rs == 500) by reflexivity.
  eexists. eexists. split; [reflexivity |].
  split; [exact Es |]. split; [exact Ea |].
  unfold textHeight. rewrite Ep, Ew, Eh, Ea.
  split; [reflexivity | field].
Qed.

(** ** Tiling *)

Lemma step_nonneg (t g : Q) : 0 <= t -> 0 <= g -> t <= t + t * (g / 100).
Proof.
  intros Ht Hg.
  assert (0 <= t * (g / 100)).
  { apply Qmult_le_0_compat; [exact Ht |]. qlra. }
  lra.
Qed.

Lemma textHeight_floor (img : Image) (watermark : WatermarkSettings)
    (resize : ResizeSettings) :
  12 <= textHeight img watermark resize.
Proof.
  unfold textHeight, actualFontSize.
  destruct (Math_max_cases (fontSize watermark * scaleFactor img resize) 12)
    as [[L ->] | [L ->]]; lra.
Qed.

(** Positive steps: the tiling loops return, with the whole grid. *)
Lemma tileGrid_terminates (W H tw th g : Q) :
  0 < stepX tw g -> 0 < stepY th g ->
  exists N, forall fuel, (N <= fuel)%nat ->
    tileGrid fuel W H tw th g =
    Done (list_prod (loopValues fuel (- tw) (W + tw) (stepX tw g))
                    (loopValues fuel (- th) (H + th) (stepY th g))).
Proof.
  intros Hx Hy.
  destruct (loopExits_positive (W + tw) (stepX tw g) Hx (- tw)) as [Nx HNx].
  destruct (loopExits_positive (H + th) (stepY th g) Hy (- th)) as [Ny HNy].
  exists (Nat.max Nx Ny). intros fuel Hf.
  unfold tileGrid. rewrite HNx, HNy by lia. reflexivity.
Qed.

(** A text that measures zero on a canvas of positive width: the outer
    loop does not advance and the placement never returns. *)
Lemma tileLoop_zero_width {S : Type} (draw : Q -> Q -> S -> S)
    (W H tw th g : Q) (s : S) :
  tw == 0 -> 0 < W ->
  forall fuel, isDone (tileLoop draw fuel W H tw th g s) = false.
Proof.
  intros Htw HW fuel. unfold tileLoop. apply forQ_stuck.
  - unfold stepX, gapX. rewrite Htw. ring.
  - rewrite Htw. lra.
Qed.

(** In tiled mode a text that measures zero keeps [processImage] from
    returning, on any decodable image whose target width is positive. *)
Lemma zero_width_tiling_never_returns (h : Host) (random : Q) (f : File)
    (img : Image) (watermark : WatermarkSettings) (resize : ResizeSettings) :
  readable f = true ->
  decoded f = Some img ->
  getContext h = true ->
  position watermark = TILED ->
  textWidth h img watermark resize == 0 ->
  0 < targetWidth img resize ->
  forall fuel, processImage h fuel random f watermark resize = None.
Proof.
  intros Hr Hd Hc Hp Htw HW fuel.
  unfold processImage. rewrite Hr, Hd, Hc. simpl.
  pose proof (tileLoop_zero_width
                (drawWatermarkAt watermark (textWidth h img watermark resize))
                (targetWidth img resize) (targetHeight img resize)
                (textWidth h img watermark resize)
                (textHeight img watermark resize) (tilingGap watermark)
                (baseLayer img watermark resize) Htw HW fuel) as Stuck.
  unfold watermarked, placeWatermark. rewrite Hp. simpl WatermarkPosition_eqb.
  cbv iota.
  destruct (tileLoop _ _ _ _ _ _ _ _) as [ctx | ctx];
    [discriminate Stuck | reflexivity].
Qed.

(** With a text of positive width and a gap that is not negative, and in
    every non-tiled mode, [processImage] returns once the fuel suffices. *)
Lemma processImage_returns (h : Host) (random : Q) (f : File)
    (watermark : WatermarkSettings) (resize : ResizeSettings) :
  (forall img, decoded f = Some img -> position watermark = TILED ->
     0 < textWidth h img watermark resize /\ 0 <= tilingGap watermark) ->
  exists N, forall fuel, (N <= fuel)%nat ->
    exists p, processImage h fuel random f watermark resize = Some p.
Proof.
  intro Hpos. unfold processImage.
  destruct (readable f); simpl; [| exists O; intros; eauto].
  destruct (decoded f) as [img |] eqn:Hd; [| exists O; intros; eauto].
  destruct (getContext h); simpl; [| exists O; intros; eauto].
  assert (R : exists N, forall fuel, (N <= fuel)%nat ->
            isDone (watermarkAnchors h fuel img watermark resize) = true).
  { unfold watermarkAnchors.
    destruct (position watermark) eqn:Hp; try (exists O; intros; reflexivity).
    destruct (Hpos img eq_refl eq_refl) as [Hw Hg].
    pose proof (textHeight_floor img watermark resize) as Hth.
    destruct (tileGrid_terminates (targetWidth img resize) (targetHeight img resize)
                (textWidth h img watermark resize) (textHeight img watermark resize)
                (tilingGap watermark)) as [N HN].
    - unfold stepX, gapX.
      eapply Qlt_le_trans; [exact Hw |]. apply step_nonneg; [lra | exact Hg].
    - unfold stepY, gapY.
      eapply Qlt_le_trans; [| apply step_nonneg; [lra | exact Hg]]. lra.
    - exists N. intros fuel Hf. now rewrite anchors_tiled, HN. }
  destruct R as [N HN]. exists N. intros fuel Hf. specialize (HN fuel Hf).
  rewrite watermarked_anchors.
  destruct (watermarkAnchors h fuel img watermark resize); [| discriminate].
  simpl. eauto.
Qed.

(** C3 (the code at the failing input).  Tiled mode with an empty text,
    which measures 0, on a 100x100 image: whatever the fuel, the invocation
    does not return; it neither resolves nor rejects. *)
Theorem empty_text_tiling_never_returns :
  forall (fuel : nat) (random : Q),
    processImage Sample.host fuel random (Sample.photo "a.jpg" 100 100)
      (withText "" (withPosition TILED Sample.watermark)) Sample.resize = None.
Proof.
  intros fuel random.
  apply (zero_width_tiling_never_returns Sample.host random
           (Sample.photo "a.jpg" 100 100) (mkImage 100 100)).
  - reflexivity.
  - reflexivity.
  - reflexivity.
  - reflexivity.
  - vm_compute. reflexivity.
  - vm_compute. reflexivity.
Qed.

(** ** The draw primitive and the drawing state *)

Lemma drawWatermarkAt_frame (watermark : WatermarkSettings) (tw x y : Q)
    (ctx : Context2D) :
  drawWatermarkAt watermark tw x y ctx =
  {| canvas_width := canvas_width ctx;
     canvas_height := canvas_height ctx;
     state := state ctx;
     saved := saved ctx;
     display := display ctx ++
       [FillText (text watermark) (- tw / 2) 0
          (instanceState watermark (state ctx) (x, y))] |}.
Proof.
  unfold drawWatermarkAt, instanceState.
  destruct (negb (Qeq_bool (contrast watermark) 0)); cbn;
    rewrite <- app_assoc; reflexivity.
Qed.

Lemma drawAll_frame (watermark : WatermarkSettings) (tw : Q) (l : list Anchor) :
  forall ctx : Context2D,
    drawAll (drawWatermarkAt watermark tw) l ctx =
    {| canvas_width := canvas_width ctx;
       canvas_height := canvas_height ctx;
       state := state ctx;
       saved := saved ctx;
       display := display ctx ++
         map (fun a => FillText (text watermark) (- tw / 2) 0
                         (instanceState watermark (state ctx) a)) l |}.
Proof.
  unfold drawAll. induction l as [| [x y] l IH]; intro ctx; simpl.
  - rewrite app_nil_r. now destruct ctx.
  - rewrite IH, drawWatermarkAt_frame. simpl.
    rewrite <- app_assoc. reflexivity.
Qed.

Lemma stateOf_mapRun {S T : Type} (f : S -> T) (r : Run S) :
  stateOf (mapRun f r) = f (stateOf r).
Proof. now destruct r. Qed.

(** Operations that do not cover a pixel leave it as it was. *)
Lemma pixelAt_outside (h : Host) (ops more : list PaintOp) (p : Point) :
  (forall op, In op more -> covers h op p = false) ->
  pixelAt h (ops ++ more) p = pixelAt h ops p.
Proof.
  unfold pixelAt. rewrite fold_left_app.
  generalize (fold_left
                (fun px op => if covers h op p then blend h op p px else px)
                ops 0%Z).
  induction more as [| op more IH]; intros px Hout; simpl; [reflexivity |].
  rewrite (Hout op) by now left.
  apply IH. intros op' Hin. apply Hout. now right.
Qed.

(** C10.  [drawWatermarkAt] leaves the drawing state and the save stack as
    it found them and adds one [fillText] to what is drawn.  Hence, at any
    point of a run, the canvas holds the base layer of the plain resize,
    untouched, followed by one text instance per anchor, each filled under
    the base state moved to its own anchor and rotated there: nothing of an
    earlier instance is in force for a later one, and every pixel that no
    instance covers is the pixel of the plain resize. *)
Theorem watermark_state_scoped :
  forall (h : Host) (fuel : nat) (img : Image)
         (watermark : WatermarkSettings) (resize : ResizeSettings),
    let base := baseLayer img watermark resize in
    let tw := textWidth h img watermark resize in
    let final := stateOf (watermarked h fuel img watermark resize) in
    let painted := stateOf (watermarkAnchors h fuel img watermark resize) in
    let instance a :=
      FillText (text watermark) (- tw / 2) 0 (instanceState watermark (state base) a) in
    (forall (x y : Q) (ctx : Context2D),
        let ctx' := drawWatermarkAt watermark tw x y ctx in
        state ctx' = state ctx /\
        saved ctx' = saved ctx /\
        display ctx' = display ctx ++
          [FillText (text watermark) (- tw / 2) 0
             (instanceState watermark (state ctx) (x, y))]) /\
    state final = state base /\
    saved final = saved base /\
    display base =
      [DrawImage img 0 0 (targetWidth img resize) (targetHeight img resize) defaultState] /\
    display final = display base ++ map instance painted /\
    (forall a : Anchor,
        transform (instanceState watermark (state base) a) =
        [Translate (fst a) (snd a); Rotate (rotation watermark / 180)]) /\
    (forall p : Point,
        (forall a, In a painted -> covers h (instance a) p = false) ->
        pixelAt h (display final) p = pixelAt h (display base) p).
Proof.
  intros h fuel img watermark resize base tw final painted instance.
  split.
  { intros x y ctx ctx'. subst ctx'. rewrite drawWatermarkAt_frame. now simpl. }
  assert (D : display final = display base ++ map instance painted).
  { subst final. rewrite watermarked_anchors, stateOf_mapRun, drawAll_frame.
    reflexivity. }
  split; [| split; [| split; [reflexivity | split; [exact D | split]]]].
  - subst final. now rewrite watermarked_anchors, stateOf_mapRun, drawAll_frame.
  - subst final. now rewrite watermarked_anchors, stateOf_mapRun, drawAll_frame.
  - reflexivity.
  - intros p Hout. rewrite D. apply pixelAt_outside.
    intros op Hop. apply in_map_iff in Hop as (a & <- & Ha). now apply Hout.
Qed.

(** ** Size estimate *)

Lemma strlen_append (a b : string) :
  JS.strlen (a ++ b) = (JS.strlen a + JS.strlen b)%Z.
Proof.
  unfold JS.strlen. rewrite <- Nat2Z.inj_add. f_equal.
  induction a as [| c a IH]; simpl; [reflexivity | now rewrite IH].
Qed.

Lemma Math_round_lt (a b : Q) :
  a + 1 <= b -> (JS.Math_round a < JS.Math_round b)%Z.
Proof.
  intro H. pose proof (Math_round_near a). pose proof (Math_round_near b).
  rewrite Zlt_Qlt. lra.
Qed.

Lemma head_length (f : ImageFormat) :
  JS.strlen (dataUriHead f) = match f with image_png => 22%Z | _ => 23%Z end.
Proof. now destruct f. Qed.

(** The estimate of index.tsx is larger on every data URI. *)
Lemma index_tsx_overstates (url : string) (f : ImageFormat) :
  (estimateSize url f < estimateSize_index_tsx url)%Z.
Proof.
  unfold estimateSize, estimateSize_index_tsx. apply Math_round_lt.
  rewrite head_length.
  assert (22 <= inject_Z (match f with image_png => 22%Z | _ => 23%Z end)).
  { destruct f; unfold Qle; simpl; lia. }
  qlra.
Qed.

(** C7.  The [size] of a resolved result is
    [Math.round((url.length - head) * 3 / 4)] with [head] the length of
    ["data:<format>;base64,"] (22 or 23 characters): on a URL made of that
    prefix and a payload it is the estimate of the payload alone, and it is
    always below the estimate [Math.round(url.length * 3 / 4)] taken on the
    whole string. *)
Theorem size_strips_header :
  forall (h : Host) (fuel : nat) (random : Q) (f : File)
         (watermark : WatermarkSettings) (resize : ResizeSettings)
         (r : ProcessedImage),
    processImage h fuel random f watermark resize = Some (Resolved r) ->
    let head := JS.strlen (dataUriHead (format resize)) in
    let n := JS.strlen (processedUrl r) in
    size r = JS.Math_round ((inject_Z n - inject_Z head) * 3 / 4) /\
    (head = 22 \/ head = 23)%Z /\
    (size r < JS.Math_round (inject_Z n * 3 / 4))%Z /\
    (forall payload : string,
        estimateSize (dataUriHead (format resize) ++ payload) (format resize) =
        JS.Math_round (inject_Z (JS.strlen payload) * 3 / 4)).
Proof.
  intros h fuel random f watermark resize r Hres head n.
  apply processImage_resolved in Hres as (img & ctx & _ & _ & ->).
  subst head n. simpl size. simpl processedUrl.
  split; [reflexivity |].
  split; [rewrite head_length; destruct (format resize); auto |].
  split; [apply index_tsx_overstates |].
  intro payload. unfold estimateSize. rewrite strlen_append, inject_Z_plus.
  unfold JS.Math_round. apply Qfloor_comp.
  generalize (inject_Z (JS.strlen payload)),
             (inject_Z (JS.strlen (dataUriHead (format resize)))).
  intros p q. field.
Qed.

Lemma size_strips_header_witness :
  exists r : ProcessedImage,
    processImage Sample.host 0 (1 # 2) (Sample.photo "wide.jpg" 2000 1000)
      Sample.watermark Sample.resize = Some (Resolved r) /\
    JS.strlen (processedUrl r) = 27%Z /\
    size r = 3%Z.
Proof.
  eexists. split; [reflexivity |].
  destruct (size_strips_header Sample.host 0 (1 # 2)
              (Sample.photo "wide.jpg" 2000 1000)
              Sample.watermark Sample.resize _ eq_refl)
    as (E & _ & _ & _).
  split; [reflexivity |]. rewrite E. reflexivity.
Defined.

(** ** Batches *)

Lemma Promise_all_resolved {A : Type} (l : list A) :
  Promise_all (map Resolved l) = Resolved l.
Proof.
  induction l as [| a l IH]; simpl; [reflexivity | now rewrite IH].
Qed.

Lemma Promise_all_rejects {A : Type} (ps : list (Promise A)) :
  (exists e, In (Rejected e) ps) ->
  exists e, Promise_all ps = Rejected e /\ In (Rejected e) ps.
Proof.
  induction ps as [| p ps IH]; intros [e He]; [destruct He |].
  simpl. destruct p as [a | e0 |].
  - destruct He as [He | He]; [discriminate |].
    destruct (IH (ex_intro _ e He)) as (e' & -> & Hin).
    exists e'. split; [reflexivity | now right].
  - exists e0. split; [reflexivity | now left].
  - destruct He as [He | He]; [discriminate |].
    destruct (IH (ex_intro _ e He)) as (e' & -> & Hin).
    exists e'. split; [reflexivity | now right].
Qed.

(** The only ways [processImage] rejects; neither names the image. *)
Lemma processImage_rejections (h : Host) (fuel : nat) (random : Q) (f : File)
    (watermark : WatermarkSettings) (resize : ResizeSettings) (e : Reason) :
  processImage h fuel random f watermark resize = Some (Rejected e) ->
  e = reason_event \/ e = reason_message "Could not get canvas context".
Proof.
  unfold processImage.
  destruct (readable f); simpl; [| intros [= <-]; now left].
  destruct (decoded f) as [img |]; [| discriminate].
  destruct (getContext h); simpl; [| intros [= <-]; now right].
  destruct (watermarked h fuel img watermark resize); discriminate.
Qed.

Lemma processFiles_nth (h : Host) (fuel : nat) (randoms : nat -> Q)
    (watermark : WatermarkSettings) (resize : ResizeSettings) :
  forall (fs : list FileData) (i0 : nat) (ps : list (Promise ProcessedImage)),
    processFiles h fuel randoms i0 fs watermark resize = Some ps ->
    List.length ps = List.length fs /\
    forall (i : nat) (p : Promise ProcessedImage),
      nth_error ps i = Some p ->
      exists f, nth_error fs i = Some f /\
        processImage h fuel (randoms (i0 + i)%nat) (file f) watermark resize = Some p.
Proof.
  induction fs as [| f fs IH]; intros i0 ps; simpl.
  - intros [= <-]. split; [reflexivity |]. intros [| i] p; discriminate.
  - destruct (processImage h fuel (randoms i0) (file f) watermark resize)
      as [p0 |] eqn:E0; [| discriminate].
    destruct (processFiles h fuel randoms (S i0) fs watermark resize)
      as [ps0 |] eqn:E1; [| discriminate].
    intros [= <-]. destruct (IH _ _ E1) as [Hlen Hnth].
    split; [simpl; now rewrite Hlen |].
    intros [| i] p; simpl.
    + intros [= <-]. exists f. now rewrite Nat.add_0_r.
    + intro Hp. destruct (Hnth i p Hp) as (f' & Hf' & Hp').
      exists f'. split; [exact Hf' |].
      now replace (i0 + S i)%nat with (S i0 + i)%nat by lia.
Qed.

(** C2, as the code has it.  A batch is all or nothing.  When every
    invocation resolves, the results replace the list, one per input and in
    input order.  When some invocation rejects, the batch is rejected as a
    whole: the list of results stays what it was and one rejection reason is
    logged, which is the reader's event or the context message and does not
    name the image. *)
Theorem batch_all_or_nothing :
  forall (h : Host) (fuel : nat) (randoms : nat -> Q)
         (watermark : WatermarkSettings) (resize : ResizeSettings)
         (st st' : AppState) (promises : list (Promise ProcessedImage)),
    files st <> [] ->
    processFiles h fuel randoms 0 (files st) watermark resize = Some promises ->
    handleProcessAll h fuel randoms watermark resize st = Some st' ->
    (forall results : list ProcessedImage,
        promises = map Resolved results ->
        processedImages st' = results /\
        List.length results = List.length (files st) /\
        isProcessing st' = false /\
        console st' = console st /\
        forall (i : nat) (r : ProcessedImage),
          nth_error results i = Some r ->
          exists f, nth_error (files st) i = Some f /\
            processImage h fuel (randoms i) (file f) watermark resize
              = Some (Resolved r)) /\
    ((exists e, In (Rejected e) promises) ->
        processedImages st' = processedImages st /\
        isProcessing st' = false /\
        exists e, In (Rejected e) promises /\
          console st' = console st ++ [e] /\
          (e = reason_event \/ e = reason_message "Could not get canvas context")).
Proof.
  intros h fuel randoms watermark resize st st' promises Hne Hps Hrun.
  unfold handleProcessAll in Hrun.
  destruct (files st) as [| f0 fs] eqn:Ef; [contradiction |].
  simpl Nat.eqb in Hrun. cbv iota in Hrun.
  simpl files in Hrun. rewrite Ef, Hps in Hrun.
  destruct (processFiles_nth h fuel randoms watermark resize _ _ _ Hps) as [Hlen Hnth].
  split.
  - intros results ->. rewrite Promise_all_resolved in Hrun.
    injection Hrun as <-. simpl.
    rewrite length_map in Hlen.
    repeat split; try assumption; try reflexivity.
    intros i r Hr.
    apply (Hnth i (Resolved r)).
    rewrite nth_error_map, Hr. reflexivity.
  - intro Hrej. destruct (Promise_all_rejects promises Hrej) as (e & He & Hin).
    rewrite He in Hrun. injection Hrun as <-. simpl.
    repeat split. exists e. repeat split; [exact Hin |].
    apply In_nth_error in Hin as [i Hi].
    destruct (Hnth i _ Hi) as (f & _ & Hp).
    eapply processImage_rejections, Hp.
Qed.

Lemma batch_all_or_nothing_witness :
  let st := Sample.batch (Sample.photo "b.jpg" 2000 1000) in
  exists (st' : AppState) (promises : list (Promise ProcessedImage)),
    files st <> [] /\
    processFiles Sample.host 0 Sample.randoms 0 (files st)
      Sample.watermark Sample.resize = Some promises /\
    handleProcessAll Sample.host 0 Sample.randoms Sample.watermark Sample.resize st
      = Some st' /\
    List.length (processedImages st') = 3%nat /\
    isProcessing st' = false.
Proof.
  intro st. eexists. eexists.
  split; [discriminate |]. split; [reflexivity |]. split; [reflexivity |].
  destruct (batch_all_or_nothing Sample.host 0 Sample.randoms
              Sample.watermark Sample.resize st _ _
              ltac:(discriminate) eq_refl eq_refl) as [All _].
  destruct (All [_; _; _] eq_refl) as (_ & L & P & _).
  split; [reflexivity | exact P].
Defined.

(** C2 as stated fails.  In a batch of three where the two others resolve,
    a file with corrupt bytes leaves the batch pending for ever, and a file
    the reader fails on rejects the batch: either way no result reaches the
    caller, and no outcome names the failing image. *)
Lemma batch_failure_not_local :
  let run bad :=
    handleProcessAll Sample.host 0 Sample.randoms Sample.watermark Sample.resize
      (Sample.batch bad) in
  (exists r, processImage Sample.host 0 (Sample.randoms 0)
               (Sample.photo "a.jpg" 800 600) Sample.watermark Sample.resize
             = Some (Resolved r)) /\
  (exists r, processImage Sample.host 0 (Sample.randoms 2)
               (Sample.photo "c.jpg" 640 480) Sample.watermark Sample.resize
             = Some (Resolved r)) /\
  (exists st', run (Sample.corrupt "b.jpg") = Some st' /\
               processedImages st' = [] /\ console st' = [] /\
               isProcessing st' = true) /\
  (exists st', run (Sample.unreadable "b.jpg") = Some st' /\
               processedImages st' = [] /\ console st' = [reason_event] /\
               isProcessing st' = false).
Proof.
  intro run.
  split; [eexists; reflexivity |].
  split; [eexists; reflexivity |].
  split; eexists; (split; [reflexivity |]); repeat split.
Qed.

(** * Double arithmetic *)

(** ** Rounding *)










Lemma rne_nonneg (x : Q) : 0 <= x -> (0 <= Binary64.rne x)%Z.
Proof.
  intro H. unfold Binary64.rne.
  assert (F : (0 <= Qfloor x)%Z).
  { change 0%Z with (Qfloor 0). now apply Qfloor_resp_le. }
  destruct (Qcompare _ _); [destruct (Z.even _) | |]; lia.
Qed.
















(** *** Rounding is monotone *)







(** ** Resize, in doubles *)






(** ** The tiling loops, in doubles *)






Section Placement64.

Context {S : Type}.
Variable draw : Q -> Q -> S -> S.


End Placement64.




(** *** The rows advance *)













(** ** The gap and the steps, in doubles *)





(** * Further properties of the code *)

(** ** processImage: outcomes *)

(** X1.  A resolved result is never larger than its source: for a
    [maxWidth] and a source height that are not negative, [width] is at most
    the source width and [height] at most the source height; and under an
    integer [maxWidth] the [width] is at most [maxWidth]. *)
Theorem never_upscales :
  forall (h : Host) (fuel : nat) (random : Q) (f : File) (img : Image)
         (watermark : WatermarkSettings) (resize : ResizeSettings)
         (r : ProcessedImage),
    0 <= maxWidth resize ->
    (0 <= img_height img)%Z ->
    decoded f = Some img ->
    processImage h fuel random f watermark resize = Some (Resolved r) ->
    (width r <= img_width img)%Z /\
    (height r <= img_height img)%Z /\
    (forall m : Z, maxWidth resize = inject_Z m -> (width r <= m)%Z).
Proof.
  intros h fuel random f img watermark resize r Hm Hh Hdec Hres.
  apply processImage_resolved in Hres as (img' & ctx & Hdec' & _ & ->).
  rewrite Hdec in Hdec'. injection Hdec' as <-.
  simpl width. simpl height.
  assert (HQ : 0 <= inject_Z (img_height img)) by (now rewrite <- (Zle_Qle 0)).
  destruct (Qlt_le_dec (maxWidth resize) (inject_Z (img_width img))) as [L | L].
  - destruct (resize_clamp img resize L) as [-> ->].
    set (W := inject_Z (img_width img)) in *.
    set (H := inject_Z (img_height img)) in *.
    set (m := maxWidth resize) in *.
    assert (Wpos : 0 < W) by lra.
    pose proof (Math_round_near m) as Nm.
    pose proof (Math_round_near (H * (m / W))) as Nh.
    assert (R : H * (m / W) <= H).
    { assert (E : H * (m / W) == H * m / W) by (field; lra).
      rewrite E. apply Qle_shift_div_r; [exact Wpos |].
      assert (P : 0 <= H * (W - m)) by (apply Qmult_le_0_compat; lra).
      lra. }
    split; [| split].
    + assert (B : inject_Z (JS.Math_round m) < inject_Z (img_width img + 1)).
      { rewrite inject_Z_plus. change (inject_Z 1) with 1. fold W. lra. }
      rewrite <- Zlt_Qlt in B. lia.
    + assert (B : inject_Z (JS.Math_round (H * (m / W))) < inject_Z (img_height img + 1)).
      { rewrite inject_Z_plus. change (inject_Z 1) with 1. fold H. lra. }
      rewrite <- Zlt_Qlt in B. lia.
    + intros k Ek. subst m. rewrite Ek, Math_round_inject_Z. lia.
  - destruct (resize_keep img resize L) as [-> ->].
    rewrite !Math_round_inject_Z.
    split; [lia | split; [lia |]].
    intros k Ek. rewrite Ek in L. now rewrite <- Zle_Qle in L.
Qed.

Lemma never_upscales_witness :
  exists r : ProcessedImage,
    0 <= maxWidth Sample.resize /\
    (0 <= 1000)%Z /\
    processImage Sample.host 0 (1 # 5) (Sample.photo "wide.jpg" 2000 1000)
      Sample.watermark Sample.resize = Some (Resolved r) /\
    (width r <= 2000)%Z /\ (height r <= 1000)%Z /\ (width r <= 1200)%Z.
Proof.
  eexists.
  assert (Hm : 0 <= maxWidth Sample.resize) by (vm_compute; discriminate).
  assert (Hh : (0 <= img_height (mkImage 2000 1000))%Z) by (vm_compute; discriminate).
  split; [exact Hm |]. split; [exact Hh |]. split; [reflexivity |].
  destruct (never_upscales Sample.host 0 (1 # 5)
              (Sample.photo "wide.jpg" 2000 1000) (mkImage 2000 1000)
              Sample.watermark Sample.resize _ Hm Hh eq_refl eq_refl)
    as (A & B & C).
  split; [exact A |]. split; [exact B |]. exact (C 1200%Z eq_refl).
Defined.

(** X2.  How an invocation settles, whatever the fuel.  It rejects with the
    reader's event exactly for an unreadable file, stays pending exactly for
    a readable file that does not decode, rejects with the context message
    exactly for a readable, decodable file without a 2D context, and rejects
    with nothing else: every rejection carries one of these two reasons.
    These three outcomes depend on the file and the context only.  In the
    one remaining case (readable, decodable, with a context) the invocation
    neither rejects nor stays pending: it resolves, or it is still inside
    the tiling loops; which of the two depends on the settings. *)
Theorem settle_classification :
  forall (h : Host) (fuel : nat) (random : Q) (f : File)
         (watermark : WatermarkSettings) (resize : ResizeSettings),
    let p := processImage h fuel random f watermark resize in
    (p = Some (Rejected reason_event) <-> readable f = false) /\
    (p = Some Pending <-> readable f = true /\ decoded f = None) /\
    (p = Some (Rejected (reason_message "Could not get canvas context")) <->
       readable f = true /\ decoded f <> None /\ getContext h = false) /\
    (forall e, p = Some (Rejected e) ->
       e = reason_event \/
       e = reason_message "Could not get canvas context") /\
    (forall r, p = Some (Resolved r) ->
       readable f = true /\ decoded f <> None /\ getContext h = true) /\
    (p = None -> readable f = true /\ decoded f <> None /\ getContext h = true) /\
    (readable f = true -> decoded f <> None -> getContext h = true ->
       p = None \/ exists r, p = Some (Resolved r)).
Proof.
  intros h fuel random f watermark resize p. subst p. unfold processImage.
  destruct (readable f); simpl.
  2:{ repeat split; try discriminate; try reflexivity; intros;
      try (injection H as <-; now left); intuition discriminate. }
  destruct (decoded f) as [img |]; simpl.
  2:{ repeat split; try discriminate; try reflexivity; intros;
      try congruence; intuition discriminate. }
  destruct (getContext h); simpl.
  2:{ repeat split; try discriminate; try reflexivity; intros;
      try (injection H as <-; now right); intuition discriminate. }
  destruct (watermarked h fuel img watermark resize);
    repeat split; try discriminate; try reflexivity; intros;
    try (right; eexists; reflexivity); try (now left); intuition discriminate.
Qed.

(** X3.  A readable, decodable file with a 2D context resolves in every
    placement mode once the fuel suffices, provided the text measures a
    positive width and the gap is not negative; the result carries the
    file's name. *)
Theorem positive_text_resolves :
  forall (h : Host) (random : Q) (f : File) (img : Image)
         (watermark : WatermarkSettings) (resize : ResizeSettings),
    readable f = true ->
    decoded f = Some img ->
    getContext h = true ->
    0 < textWidth h img watermark resize ->
    0 <= tilingGap watermark ->
    exists N, forall fuel, (N <= fuel)%nat ->
      exists r, processImage h fuel random f watermark resize = Some (Resolved r) /\
                originalName r = name f.
Proof.
  intros h random f img watermark resize Hr Hd Hc Hw Hg.
  assert (R : exists N, forall fuel, (N <= fuel)%nat ->
            isDone (watermarkAnchors h fuel img watermark resize) = true).
  { unfold watermarkAnchors.
    destruct (position watermark) eqn:Hp; try (exists O; intros; reflexivity).
    pose proof (textHeight_floor img watermark resize) as Hth.
    destruct (tileGrid_terminates (targetWidth img resize) (targetHeight img resize)
                (textWidth h img watermark resize) (textHeight img watermark resize)
                (tilingGap watermark)) as [N HN].
    - unfold stepX, gapX.
      eapply Qlt_le_trans; [exact Hw |]. apply step_nonneg; [lra | exact Hg].
    - unfold stepY, gapY.
      eapply Qlt_le_trans; [| apply step_nonneg; [lra | exact Hg]]. lra.
    - exists N. intros fuel Hf. now rewrite anchors_tiled, HN. }
  destruct R as [N HN]. exists N. intros fuel Hf. specialize (HN fuel Hf).
  unfold processImage. rewrite Hr, Hd, Hc. simpl.
  rewrite watermarked_anchors.
  destruct (watermarkAnchors h fuel img watermark resize); [| discriminate].
  simpl. eexists. split; reflexivity.
Qed.

Lemma positive_text_resolves_witness :
  let f := Sample.photo "a.jpg" 100 100 in
  let wm := withPosition TILED Sample.watermark in
  readable f = true /\
  decoded f = Some (mkImage 100 100) /\
  getContext Sample.host = true /\
  0 < textWidth Sample.host (mkImage 100 100) wm Sample.resize /\
  0 <= tilingGap wm /\
  exists N, forall fuel, (N <= fuel)%nat ->
    exists r, processImage Sample.host fuel (1 # 5) f wm Sample.resize
                = Some (Resolved r) /\
              originalName r = name f.
Proof.
  intros f wm.
  assert (Hw : 0 < textWidth Sample.host (mkImage 100 100) wm Sample.resize)
    by (vm_compute; reflexivity).
  assert (Hg : 0 <= tilingGap wm) by (vm_compute; discriminate).
  repeat (split; [first [reflexivity | assumption] |]).
  exact (positive_text_resolves Sample.host (1 # 5) f (mkImage 100 100) wm
           Sample.resize eq_refl eq_refl eq_refl Hw Hg).
Defined.

(** ** processImage: what is drawn *)

(** X4.  At any point of a run, whatever is on the canvas is the source
    image, drawn once under the default state (full alpha, no filter), or
    the watermark text, filled at [(-textWidth / 2, 0)] under the
    configured opacity and colour, the effective font size and the middle
    baseline, and filtered exactly when the contrast is not 0. *)
Theorem opacity_on_watermark_only :
  forall (h : Host) (fuel : nat) (img : Image)
         (watermark : WatermarkSettings) (resize : ResizeSettings)
         (op : PaintOp),
    In op (display (stateOf (watermarked h fuel img watermark resize))) ->
    match op with
    | DrawImage i dx dy dw dh st =>
        i = img /\ st = defaultState /\ globalAlpha st = 1 /\
        dw = targetWidth img resize /\ dh = targetHeight img resize
    | FillText txt x y st =>
        txt = text watermark /\
        x = - textWidth h img watermark resize / 2 /\ y = 0 /\
        globalAlpha st = opacity watermark /\
        fillStyle st = color watermark /\
        font st = actualFontSize img watermark resize /\
        textBaseline st = middle /\
        filter st = (if Qeq_bool (contrast watermark) 0 then filter_none
                     else filter_contrast (1 + contrast watermark / 100))
    end.
Proof.
  intros h fuel img watermark resize op.
  rewrite watermarked_anchors, stateOf_mapRun, drawAll_frame.
  simpl display. intros [<- | Hin].
  - repeat split.
  - apply in_map_iff in Hin as (a & <- & _).
    unfold instanceState. simpl.
    destruct (Qeq_bool (contrast watermark) 0); repeat split.
Qed.

Lemma opacity_on_watermark_only_witness :
  let img := mkImage 100 100 in
  let drawn := display (stateOf (watermarked Sample.host 0 img Sample.watermark
                                   Sample.resize)) in
  exists (x y : Q) (st : DrawState),
    In (FillText "WEBSNAP" x y st) drawn /\
    globalAlpha st = 8 # 10 /\ fillStyle st = "#000000"%string.
Proof.
  intros img drawn.
  assert (Hin : In (nth 1 drawn (DrawImage img 0 0 0 0 defaultState)) drawn)
    by (right; left; reflexivity).
  pose proof (opacity_on_watermark_only Sample.host 0 img Sample.watermark
                Sample.resize _ Hin) as P.
  simpl in P. destruct P as (_ & _ & _ & A & C & _).
  eexists. eexists. eexists. split; [exact Hin |]. split; [exact A | exact C].
Defined.

(** ** processImage: single placement *)


(** ** processImage: the tiling loops *)

Lemma loopValues_lower (bound step : Q) (fuel : nat) (x v : Q) :
  0 <= step -> In v (loopValues fuel x bound step) -> x <= v.
Proof.
  intros Hs Hin. apply loopValues_In in Hin as (i & -> & _).
  apply (loopValue_mono step x O i Hs). lia.
Qed.

Lemma loopValues_sorted (bound step : Q) :
  0 < step ->
  forall (fuel : nat) (x : Q), StronglySorted Qlt (loopValues fuel x bound step).
Proof.
  intros Hs. induction fuel as [| n IH]; intro x; simpl; [constructor |].
  destruct (JS.ltb x bound); [| constructor].
  constructor; [apply IH |].
  apply Forall_forall. intros v Hv.
  apply loopValues_lower in Hv; lra.
Qed.

Lemma sorted_NoDup (l : list Q) : StronglySorted Qlt l -> NoDup l.
Proof.
  induction 1 as [| a l _ IH Hall]; constructor; [| exact IH].
  intro Hin. rewrite Forall_forall in Hall. specialize (Hall a Hin). lra.
Qed.

Lemma NoDup_grid (xs ys : list Q) :
  NoDup xs -> NoDup ys -> NoDup (list_prod xs ys).
Proof.
  intros Hx Hy. induction Hx as [| x xs Hnin _ IH]; simpl; [constructor |].
  apply NoDup_app.
  - clear -Hy. induction Hy as [| y ys Hnin _ IH]; simpl; constructor; [| exact IH].
    intro Hin. apply in_map_iff in Hin as (y' & [= <-] & Hy'). contradiction.
  - exact IH.
  - intros [a b] Hin Hin'.
    apply in_map_iff in Hin as (y' & [= <- <-] & _).
    apply in_prod_iff in Hin' as [Hin' _]. contradiction.
Qed.

(** What a tiling run that returned has been through. *)
Lemma tileGrid_done (fuel : nat) (W H tw th g : Q) (l : list Anchor) :
  tileGrid fuel W H tw th g = Done l ->
  loopExits fuel (- tw) (W + tw) (stepX tw g) = true /\
  ((loopExits fuel (- th) (H + th) (stepY th g) = true /\
    l = list_prod (loopValues fuel (- tw) (W + tw) (stepX tw g))
                  (loopValues fuel (- th) (H + th) (stepY th g)))
   \/ (loopValues fuel (- tw) (W + tw) (stepX tw g) = [] /\ l = [])).
Proof.
  unfold tileGrid.
  destruct (loopExits fuel (- th) (H + th) (stepY th g));
    destruct (loopExits fuel (- tw) (W + tw) (stepX tw g)).
  - intros [= <-]. split; [reflexivity | left; now split].
  - discriminate.
  - destruct (loopValues fuel (- tw) (W + tw) (stepX tw g)); [| discriminate].
    intros [= <-]. split; [reflexivity | right; now split].
  - destruct (loopValues fuel (- tw) (W + tw) (stepX tw g)); discriminate.
Qed.

Lemma tiled_steps_positive (h : Host) (img : Image)
    (watermark : WatermarkSettings) (resize : ResizeSettings) :
  0 < textWidth h img watermark resize ->
  0 <= tilingGap watermark ->
  0 < stepX (textWidth h img watermark resize) (tilingGap watermark) /\
  0 < stepY (textHeight img watermark resize) (tilingGap watermark).
Proof.
  intros Hw Hg. pose proof (textHeight_floor img watermark resize) as Hth.
  split.
  - unfold stepX, gapX.
    eapply Qlt_le_trans; [exact Hw |]. apply step_nonneg; [lra | exact Hg].
  - unfold stepY, gapY.
    eapply Qlt_le_trans; [| apply step_nonneg; [lra | exact Hg]]. lra.
Qed.

(** X6.  A tiled run that returns has painted a full rectangular grid,
    column by column from left to right and, within a column, from top to
    bottom: the anchors are the product of a strictly increasing list of
    abscissas and a strictly increasing list of ordinates, so no anchor is
    painted twice. *)
Theorem tiles_in_order_once :
  forall (h : Host) (fuel : nat) (img : Image)
         (watermark : WatermarkSettings) (resize : ResizeSettings)
         (l : list Anchor),
    0 < textWidth h img watermark resize ->
    0 <= tilingGap watermark ->
    watermarkAnchors h fuel img (withPosition TILED watermark) resize = Done l ->
    exists xs ys : list Q,
      l = list_prod xs ys /\
      StronglySorted Qlt xs /\ StronglySorted Qlt ys /\
      NoDup l /\
      List.length l = (List.length xs * List.length ys)%nat.
Proof.
  intros h fuel img watermark resize l Hw Hg Hrun.
  destruct (tiled_steps_positive h img watermark resize Hw Hg) as [Px Py].
  unfold watermarkAnchors in Hrun. simpl position in Hrun. simpl tilingGap in Hrun.
  change (textWidth h img (withPosition TILED watermark) resize)
    with (textWidth h img watermark resize) in Hrun.
  change (textHeight img (withPosition TILED watermark) resize)
    with (textHeight img watermark resize) in Hrun.
  rewrite anchors_tiled in Hrun.
  pose proof (loopValues_sorted
                (targetWidth img resize + textWidth h img watermark resize)
                _ Px fuel (- textWidth h img watermark resize)) as Sx.
  pose proof (loopValues_sorted
                (targetHeight img resize + textHeight img watermark resize)
                _ Py fuel (- textHeight img watermark resize)) as Sy.
  apply tileGrid_done in Hrun as [_ [[_ ->] | [E ->]]].
  - eexists. eexists. split; [reflexivity |].
    split; [exact Sx |]. split; [exact Sy |].
    split; [apply NoDup_grid; now apply sorted_NoDup | apply length_prod].
  - exists [], []. repeat split; constructor.
Qed.

Lemma tiles_in_order_once_witness :
  let img := mkImage 100 100 in
  0 < textWidth Sample.host img Sample.watermark Sample.resize /\
  0 <= tilingGap Sample.watermark /\
  exists l : list Anchor,
    watermarkAnchors Sample.host 20 img (withPosition TILED Sample.watermark)
      Sample.resize = Done l /\
    NoDup l /\ List.length l = 21%nat.
Proof.
  intro img.
  assert (Hw : 0 < textWidth Sample.host img Sample.watermark Sample.resize)
    by (vm_compute; reflexivity).
  assert (Hg : 0 <= tilingGap Sample.watermark) by (vm_compute; discriminate).
  split; [exact Hw |]. split; [exact Hg |].
  eexists. split; [vm_compute; reflexivity |].
  destruct (tiles_in_order_once Sample.host 20 img Sample.watermark Sample.resize _
              Hw Hg ltac:(vm_compute; reflexivity))
    as (xs & ys & _ & _ & _ & Hnd & _).
  split; [exact Hnd | reflexivity].
Defined.

(** A loop that has left stepped over every point between its start and
    its bound. *)
Lemma loopValues_cover (bound step : Q) :
  forall (fuel : nat) (x p : Q),
    loopExits fuel x bound step = true ->
    x <= p -> p < bound ->
    exists v, In v (loopValues fuel x bound step) /\ v <= p /\ p < v + step.
Proof.
  induction fuel as [| n IH]; intros x p He Hl Hu; simpl in He.
  - rewrite negb_true_iff in He. apply ltb_ge in He. lra.
  - assert (Hx : JS.ltb x bound = true) by (apply ltb_lt; lra).
    simpl. rewrite Hx in *.
    destruct (Qlt_le_dec p (x + step)) as [Lt | Ge].
    + exists x. split; [now left | split; assumption].
    + destruct (IH (x + step) p He Ge Hu) as (v & Hin & Hv).
      exists v. split; [now right | exact Hv].
Qed.

(** X7.  A tiled run that returns covers the canvas and its margin: every
    point with [-textW <= px < W + textW] and [-textH <= py < H + textH]
    has a painted anchor at most one step to its left and one step above. *)
Theorem tiles_cover_canvas :
  forall (h : Host) (fuel : nat) (img : Image)
         (watermark : WatermarkSettings) (resize : ResizeSettings)
         (l : list Anchor) (px py : Q),
    watermarkAnchors h fuel img (withPosition TILED watermark) resize = Done l ->
    let W := targetWidth img resize in
    let H := targetHeight img resize in
    let textW := textWidth h img watermark resize in
    let textH := textHeight img watermark resize in
    - textW <= px -> px < W + textW ->
    - textH <= py -> py < H + textH ->
    exists a : Anchor,
      In a l /\
      fst a <= px /\ px < fst a + stepX textW (tilingGap watermark) /\
      snd a <= py /\ py < snd a + stepY textH (tilingGap watermark).
Proof.
  intros h fuel img watermark resize l px py Hrun W H textW textH Hx0 Hx1 Hy0 Hy1.
  unfold watermarkAnchors in Hrun. simpl position in Hrun. simpl tilingGap in Hrun.
  change (textWidth h img (withPosition TILED watermark) resize) with textW in Hrun.
  change (textHeight img (withPosition TILED watermark) resize) with textH in Hrun.
  fold W H in Hrun. rewrite anchors_tiled in Hrun.
  apply tileGrid_done in Hrun as [Ex [[Ey ->] | [E _]]].
  - destruct (loopValues_cover _ _ fuel _ px Ex Hx0 Hx1) as (x & Hinx & Hx).
    destruct (loopValues_cover _ _ fuel _ py Ey Hy0 Hy1) as (y & Hiny & Hy).
    exists (x, y). split; [now apply in_prod | simpl; tauto].
  - destruct (loopValues_cover _ _ fuel _ px Ex Hx0 Hx1) as (x & Hinx & _).
    rewrite E in Hinx. destruct Hinx.
Qed.

Lemma tiles_cover_canvas_witness :
  let img := mkImage 100 100 in
  exists (l : list Anchor) (a : Anchor),
    watermarkAnchors Sample.host 20 img (withPosition TILED Sample.watermark)
      Sample.resize = Done l /\
    In a l /\ fst a <= 50 /\ snd a <= 50.
Proof.
  intro img. eexists.
  destruct (tiles_cover_canvas Sample.host 20 img Sample.watermark Sample.resize _
              50 50 ltac:(vm_compute; reflexivity)
              ltac:(vm_compute; discriminate) ltac:(vm_compute; reflexivity)
              ltac:(vm_compute; discriminate) ltac:(vm_compute; reflexivity))
    as (a & Hin & Hx & _ & Hy & _).
  exists a. split; [vm_compute; reflexivity |].
  split; [exact Hin | split; assumption].
Defined.

(** ** processImage: size and id *)

Lemma Math_round_nonneg (x : Q) : (0 <= JS.Math_round x)%Z <-> - (1 # 2) <= x.
Proof.
  pose proof (Math_round_near x) as N. split.
  - intro P. rewrite Zle_Qle in P. change (inject_Z 0) with 0 in P. lra.
  - intro P.
    assert (B : inject_Z (-1) < inject_Z (JS.Math_round x)).
    { change (inject_Z (-1)) with (- 1). lra. }
    rewrite <- Zlt_Qlt in B. lia.
Qed.

(** X8.  On a data URL made of the prefix of its format and a payload of
    [4 * n] characters, the size reported is exactly [3 * n], the bytes that
    an unpadded base64 payload of that length encodes; and on any URL the
    size is negative exactly when the URL is shorter than the prefix. *)
Theorem size_exact_on_whole_groups :
  forall (f : ImageFormat) (payload url : string) (n : Z),
    JS.strlen payload = (4 * n)%Z ->
    estimateSize (dataUriHead f ++ payload) f = (3 * n)%Z /\
    ((estimateSize url f < 0)%Z <-> (JS.strlen url < JS.strlen (dataUriHead f))%Z).
Proof.
  intros f payload url n Hlen. split.
  - unfold estimateSize. rewrite strlen_append, Hlen, inject_Z_plus.
    transitivity (JS.Math_round (inject_Z (3 * n))); [| apply Math_round_inject_Z].
    unfold JS.Math_round. apply Qfloor_comp.
    rewrite !inject_Z_mult.
    change (inject_Z 4) with 4. change (inject_Z 3) with 3.
    generalize (inject_Z n), (inject_Z (JS.strlen (dataUriHead f))).
    intros a b. field.
  - unfold estimateSize.
    set (u := JS.strlen url). set (hd := JS.strlen (dataUriHead f)).
    pose proof (Math_round_nonneg ((inject_Z u - inject_Z hd) * 3 / 4)) as P.
    split.
    + intro Neg.
      destruct (Z_lt_le_dec u hd) as [L | G]; [exact L |].
      assert (Q0 : inject_Z hd <= inject_Z u) by (now rewrite <- Zle_Qle).
      assert (0 <= JS.Math_round ((inject_Z u - inject_Z hd) * 3 / 4))%Z
        by (apply P; qlra).
      lia.
    + intro L.
      destruct (Z_lt_le_dec (JS.Math_round ((inject_Z u - inject_Z hd) * 3 / 4)) 0)
        as [N | N]; [exact N |].
      apply P in N.
      assert (Q0 : inject_Z (u + 1) <= inject_Z hd) by (rewrite <- Zle_Qle; lia).
      rewrite inject_Z_plus in Q0. change (inject_Z 1) with 1 in Q0. qlra.
Qed.

Lemma size_exact_on_whole_groups_witness :
  JS.strlen "AAAA" = (4 * 1)%Z /\
  estimateSize (dataUriHead image_png ++ "AAAA") image_png = 3%Z /\
  (estimateSize "data:," image_png < 0)%Z.
Proof.
  destruct (size_exact_on_whole_groups image_png "AAAA" "data:," 1 eq_refl)
    as [E S].
  split; [reflexivity |]. split; [exact E |].
  apply S. reflexivity.
Defined.

Lemma substring_length (s : string) :
  forall n m : nat,
    String.length (substring n m s) = Nat.min m (String.length s - n).
Proof.
  induction s as [| c s IH]; intros n m.
  - destruct n, m; reflexivity.
  - destruct n as [| n]; simpl.
    + destruct m as [| m]; simpl; [reflexivity |].
      rewrite IH, Nat.sub_0_r. reflexivity.
    + apply IH.
Qed.

(** X9.  The id of a resolved result has seven characters fewer than the
    base-36 rendering of its draw, and none when the rendering has at most
    seven: a draw that prints short, such as one half, leaves the id empty. *)
Theorem id_length :
  forall (h : Host) (fuel : nat) (random : Q) (f : File)
         (watermark : WatermarkSettings) (resize : ResizeSettings)
         (r : ProcessedImage),
    processImage h fuel random f watermark resize = Some (Resolved r) ->
    String.length (id r) = (String.length (toString36 h random) - 7)%nat /\
    ((String.length (toString36 h random) <= 7)%nat -> id r = EmptyString).
Proof.
  intros h fuel random f watermark resize r Hres.
  apply processImage_resolved in Hres as (img & ctx & _ & _ & ->).
  simpl id. unfold freshId, substringFrom.
  assert (L : String.length
                (substring 7 (String.length (toString36 h random) - 7)
                   (toString36 h random))
              = (String.length (toString36 h random) - 7)%nat).
  { rewrite substring_length. apply Nat.min_id. }
  split; [exact L |].
  intro Short.
  destruct (substring 7 (String.length (toString36 h random) - 7)
              (toString36 h random)); [reflexivity |].
  simpl in L. lia.
Qed.

Lemma id_length_witness :
  exists r : ProcessedImage,
    processImage Sample.host 0 (1 # 2) (Sample.photo "a.jpg" 800 600)
      Sample.watermark Sample.resize = Some (Resolved r) /\
    toString36 Sample.host (1 # 2) = "0.i"%string /\
    id r = EmptyString.
Proof.
  eexists. split; [reflexivity |]. split; [reflexivity |].
  destruct (id_length Sample.host 0 (1 # 2) (Sample.photo "a.jpg" 800 600)
              Sample.watermark Sample.resize _ eq_refl) as [_ E].
  apply E. vm_compute. lia.
Defined.

(** ** App.tsx: batches *)

Lemma outcome_cases (h : Host) (fuel : nat) (random : Q) (f : File)
    (watermark : WatermarkSettings) (resize : ResizeSettings)
    (p : Promise ProcessedImage) :
  processImage h fuel random f watermark resize = Some p ->
  (readable f = false /\ p = Rejected reason_event) \/
  (readable f = true /\ decoded f = None /\ p = Pending) \/
  (readable f = true /\ decoded f <> None /\ getContext h = false /\
     p = Rejected (reason_message "Could not get canvas context")) \/
  (readable f = true /\ decoded f <> None /\ getContext h = true /\
     exists r, p = Resolved r /\ originalName r = name f).
Proof.
  unfold processImage.
  destruct (readable f); simpl; [| intros [= <-]; now left].
  destruct (decoded f) as [img |]; simpl; [| intros [= <-]; right; left; now repeat split].
  destruct (getContext h); simpl.
  - destruct (watermarked h fuel img watermark resize); [| discriminate].
    intros [= <-]. right; right; right.
    repeat split; try discriminate. eexists. split; reflexivity.
  - intros [= <-]. right; right; left. repeat split; discriminate.
Qed.

Lemma processFiles_Forall2 (h : Host) (fuel : nat) (randoms : nat -> Q)
    (watermark : WatermarkSettings) (resize : ResizeSettings) :
  forall (fs : list FileData) (i0 : nat) (ps : list (Promise ProcessedImage)),
    processFiles h fuel randoms i0 fs watermark resize = Some ps ->
    Forall2 (fun fd p => exists i,
               processImage h fuel (randoms i) (file fd) watermark resize = Some p)
            fs ps.
Proof.
  induction fs as [| fd fs IH]; intros i0 ps; simpl.
  - intros [= <-]. constructor.
  - destruct (processImage h fuel (randoms i0) (file fd) watermark resize)
      as [p0 |] eqn:E0; [| discriminate].
    destruct (processFiles h fuel randoms (S i0) fs watermark resize)
      as [ps0 |] eqn:E1; [| discriminate].
    intros [= <-]. constructor; [now exists i0 | eapply IH, E1].
Qed.

Lemma Promise_all_resolved_inv {A : Type} (ps : list (Promise A)) :
  forall l, Promise_all ps = Resolved l -> ps = map Resolved l.
Proof.
  induction ps as [| p ps IH]; intros l; simpl.
  - now intros [= <-].
  - destruct p as [a | e |]; destruct (Promise_all ps) as [l0 | e0 |];
      try discriminate.
    intros [= <-]. simpl. now rewrite (IH l0 eq_refl).
Qed.

Lemma Promise_all_rejected_inv {A : Type} (ps : list (Promise A)) :
  forall e, Promise_all ps = Rejected e -> In (Rejected e) ps.
Proof.
  induction ps as [| p ps IH]; intro e; simpl; [discriminate |].
  destruct p as [a | e0 |]; destruct (Promise_all ps) as [l0 | e1 |];
    try discriminate; intros [= <-]; try (now left); right; now apply IH.
Qed.

Lemma Promise_all_pending {A : Type} (ps : list (Promise A)) :
  Promise_all ps = Pending <->
  (forall e, ~ In (Rejected e) ps) /\ In Pending ps.
Proof.
  induction ps as [| p ps IH]; simpl.
  - split; [discriminate | intros [_ []]].
  - pose proof (Promise_all_rejected_inv ps) as Rinv.
    destruct p as [a | e |].
    + destruct (Promise_all ps) as [l0 | e0 |].
      * split; [discriminate |]. intros [Hno [H | H]]; [discriminate |].
        destruct IH as [_ IH2].
        assert (P : @Resolved (list A) l0 = Pending); [| discriminate P].
        apply IH2. split; [| exact H]. intros e He. apply (Hno e). now right.
      * split; [discriminate |]. intros [Hno _].
        exfalso. apply (Hno e0). right. now apply Rinv.
      * split; [intros _ | reflexivity].
        destruct IH as [IH1 _]. destruct (IH1 eq_refl) as [Hno Hin].
        split; [| now right].
        intros e [H | H]; [discriminate | now apply (Hno e)].
    + split.
      * destruct (Promise_all ps); discriminate.
      * intros [Hno _]. exfalso. apply (Hno e). now left.
    + destruct (Promise_all ps) as [l0 | e0 |] eqn:E.
      * split; [intros _ | reflexivity].
        split; [| now left].
        intros e [H | H]; [discriminate |].
        destruct (Promise_all_rejects ps (ex_intro _ e H)) as (e' & E' & _).
        congruence.
      * split; [discriminate |]. intros [Hno _].
        exfalso. apply (Hno e0). right. now apply Rinv.
      * split; [intros _ | reflexivity].
        destruct IH as [IH1 _]. destruct (IH1 eq_refl) as [Hno Hin].
        split; [| now left].
        intros e [H | H]; [discriminate | now apply (Hno e)].
Qed.

Lemma Forall2_In_l {A B : Type} (R : A -> B -> Prop) (l1 : list A) (l2 : list B) :
  Forall2 R l1 l2 -> forall a, In a l1 -> exists b, In b l2 /\ R a b.
Proof.
  induction 1 as [| x y l1 l2 Hxy _ IH]; intros a Hin; [destruct Hin |].
  destruct Hin as [<- | Hin].
  - exists y. split; [now left | exact Hxy].
  - destruct (IH a Hin) as (b & Hb & Hab). exists b. split; [now right | exact Hab].
Qed.

Lemma Forall2_In_r {A B : Type} (R : A -> B -> Prop) (l1 : list A) (l2 : list B) :
  Forall2 R l1 l2 -> forall b, In b l2 -> exists a, In a l1 /\ R a b.
Proof.
  induction 1 as [| x y l1 l2 Hxy _ IH]; intros b Hin; [destruct Hin |].
  destruct Hin as [<- | Hin].
  - exists x. split; [now left | exact Hxy].
  - destruct (IH b Hin) as (a & Ha & Hab). exists a. split; [now right | exact Hab].
Qed.

(** A batch stays pending exactly when no file fails and some file does
    not decode. *)
Lemma batch_pending (h : Host) (fuel : nat) (randoms : nat -> Q)
    (watermark : WatermarkSettings) (resize : ResizeSettings)
    (fs : list FileData) (i0 : nat) (ps : list (Promise ProcessedImage)) :
  processFiles h fuel randoms i0 fs watermark resize = Some ps ->
  (Promise_all ps = Pending <->
   (forall fd, In fd fs ->
      readable (file fd) = true /\
      (decoded (file fd) = None \/ getContext h = true)) /\
   (exists fd, In fd fs /\ decoded (file fd) = None)).
Proof.
  intro Hps. apply processFiles_Forall2 in Hps as F.
  rewrite Promise_all_pending. split.
  - intros [Hno Hin]. split.
    + intros fd Hfd.
      destruct (Forall2_In_l _ _ _ F fd Hfd) as (p & Hp & i & Hi).
      destruct (outcome_cases _ _ _ _ _ _ _ Hi)
        as [[_ ->] | [(R & D & _) | [(_ & _ & _ & ->) | (R & _ & C & _)]]].
      * destruct (Hno _ Hp).
      * split; [exact R | now left].
      * destruct (Hno _ Hp).
      * split; [exact R | now right].
    + destruct (Forall2_In_r _ _ _ F Pending Hin) as (fd & Hfd & i & Hi).
      exists fd. split; [exact Hfd |].
      destruct (outcome_cases _ _ _ _ _ _ _ Hi)
        as [[_ E] | [(_ & D & _) | [(_ & _ & _ & E) | (_ & _ & _ & r & E & _)]]];
        try discriminate E. exact D.
  - intros [Hall (fd & Hfd & D)]. split.
    + intros e He.
      destruct (Forall2_In_r _ _ _ F _ He) as (fd' & Hfd' & i & Hi).
      destruct (Hall fd' Hfd') as [R DC].
      destruct (outcome_cases _ _ _ _ _ _ _ Hi)
        as [[R' _] | [(_ & _ & E) | [(_ & D' & C' & _) | (_ & _ & _ & r & E & _)]]];
        try discriminate E; [congruence |].
      destruct DC as [DC | DC]; [contradiction | congruence].
    + destruct (Forall2_In_l _ _ _ F fd Hfd) as (p & Hp & i & Hi).
      destruct (Hall fd Hfd) as [R _].
      destruct (outcome_cases _ _ _ _ _ _ _ Hi)
        as [[R' _] | [(_ & _ & ->) | [(_ & D' & _) | (_ & D' & _)]]];
        [congruence | exact Hp | contradiction | contradiction].
Qed.

(** X10.  Processing never changes the list of files, and the
    "processing" flag stays raised afterwards exactly when every file is
    readable (and a context exists for those that decode) while some file
    does not decode: the batch then never settles, and results and log stay
    as they were. *)
Theorem indicator_stays_on :
  forall (h : Host) (fuel : nat) (randoms : nat -> Q)
         (watermark : WatermarkSettings) (resize : ResizeSettings)
         (st st' : AppState),
    files st <> [] ->
    handleProcessAll h fuel randoms watermark resize st = Some st' ->
    files st' = files st /\
    (isProcessing st' = true <->
       (forall fd, In fd (files st) ->
          readable (file fd) = true /\
          (decoded (file fd) = None \/ getContext h = true)) /\
       (exists fd, In fd (files st) /\ decoded (file fd) = None)) /\
    (isProcessing st' = true ->
       processedImages st' = processedImages st /\ console st' = console st).
Proof.
  intros h fuel randoms watermark resize st st' Hne Hrun.
  unfold handleProcessAll in Hrun.
  destruct (files st) as [| f0 fs] eqn:Ef; [contradiction |].
  simpl Nat.eqb in Hrun. cbv iota in Hrun. simpl files in Hrun. rewrite Ef in Hrun.
  destruct (processFiles h fuel randoms 0 (f0 :: fs) watermark resize)
    as [ps |] eqn:Hps; [| discriminate].
  pose proof (batch_pending _ _ _ _ _ _ _ _ Hps) as BP.
  destruct (Promise_all ps) as [results | e |];
    injection Hrun as <-; simpl; rewrite Ef.
  - split; [reflexivity |]. split; [| discriminate].
    split; [discriminate | intro R; apply BP in R; discriminate].
  - split; [reflexivity |]. split; [| discriminate].
    split; [discriminate | intro R; apply BP in R; discriminate].
  - split; [reflexivity |]. split; [| now split].
    split; [intros _; now apply BP | reflexivity].
Qed.

Lemma indicator_stays_on_witness :
  let st := Sample.batch (Sample.corrupt "b.jpg") in
  exists st' : AppState,
    files st <> [] /\
    handleProcessAll Sample.host 0 Sample.randoms Sample.watermark Sample.resize st
      = Some st' /\
    isProcessing st' = true /\ processedImages st' = [] /\ files st' = files st.
Proof.
  intro st. eexists.
  assert (Hne : files st <> []) by discriminate.
  split; [exact Hne |]. split; [reflexivity |].
  destruct (indicator_stays_on Sample.host 0 Sample.randoms Sample.watermark
              Sample.resize st _ Hne eq_refl) as (F & I & K).
  assert (On : isProcessing
                 {| files := files st; processedImages := processedImages st;
                    isProcessing := true; console := console st |} = true)
    by reflexivity.
  split; [exact On |]. split; [exact (proj1 (K On)) | exact F].
Defined.

Lemma resolved_names (h : Host) (fuel : nat) (randoms : nat -> Q)
    (watermark : WatermarkSettings) (resize : ResizeSettings) :
  forall (results : list ProcessedImage) (fs : list FileData),
    Forall2 (fun fd p => exists i,
               processImage h fuel (randoms i) (file fd) watermark resize = Some p)
            fs (map Resolved results) ->
    map originalName results = map (fun fd => name (file fd)) fs.
Proof.
  induction results as [| r results IH]; intros fs F; inversion F; subst;
    [reflexivity |].
  simpl. f_equal; [| now apply IH].
  match goal with H : exists i, _ |- _ => destruct H as [i Hi] end.
  destruct (outcome_cases _ _ _ _ _ _ _ Hi)
    as [[_ E] | [(_ & _ & E) | [(_ & _ & _ & E) | (_ & _ & _ & r' & E & Hn)]]];
    try discriminate E.
  injection E as <-. exact Hn.
Qed.

(** A batch that finished without logging names its inputs in order. *)
Lemma clean_finish_names (h : Host) (fuel : nat) (randoms : nat -> Q)
    (watermark : WatermarkSettings) (resize : ResizeSettings)
    (st st' : AppState) :
  files st <> [] ->
  handleProcessAll h fuel randoms watermark resize st = Some st' ->
  isProcessing st' = false ->
  console st' = console st ->
  map originalName (processedImages st') = map (fun fd => name (file fd)) (files st).
Proof.
  intros Hne Hrun Hoff Hlog.
  unfold handleProcessAll in Hrun.
  destruct (files st) as [| f0 fs] eqn:Ef; [contradiction |].
  simpl Nat.eqb in Hrun. cbv iota in Hrun. simpl files in Hrun. rewrite Ef in Hrun.
  destruct (processFiles h fuel randoms 0 (f0 :: fs) watermark resize)
    as [ps |] eqn:Hps; [| discriminate].
  apply processFiles_Forall2 in Hps as F.
  destruct (Promise_all ps) as [results | e |] eqn:EP;
    injection Hrun as <-; simpl in *.
  - apply Promise_all_resolved_inv in EP. subst ps.
    exact (resolved_names h fuel randoms watermark resize results (f0 :: fs) F).
  - apply (f_equal (@List.length Reason)) in Hlog.
    rewrite length_app in Hlog. simpl in Hlog. lia.
  - discriminate.
Qed.

(** X11.  Whenever a batch finishes (the flag is lowered) without logging
    an error, the results stand for the inputs one to one and in order:
    there are as many results as files and the [i]-th result carries the
    name of the [i]-th file, also when several files share a name. *)
Theorem results_name_inputs :
  forall (h : Host) (fuel : nat) (randoms : nat -> Q)
         (watermark : WatermarkSettings) (resize : ResizeSettings)
         (st st' : AppState),
    files st <> [] ->
    handleProcessAll h fuel randoms watermark resize st = Some st' ->
    isProcessing st' = false ->
    console st' = console st ->
    map originalName (processedImages st') = map (fun fd => name (file fd)) (files st) /\
    List.length (processedImages st') = List.length (files st) /\
    forall (i : nat) (r : ProcessedImage),
      nth_error (processedImages st') i = Some r ->
      exists fd, nth_error (files st) i = Some fd /\ originalName r = name (file fd).
Proof.
  intros h fuel randoms watermark resize st st' Hne Hrun Hoff Hlog.
  pose proof (clean_finish_names h fuel randoms watermark resize st st'
                Hne Hrun Hoff Hlog) as N.
  split; [exact N |]. split.
  - rewrite <- (length_map originalName), N. apply length_map.
  - intros i r Hr.
    assert (E : nth_error (map originalName (processedImages st')) i
                = Some (originalName r)) by (now rewrite nth_error_map, Hr).
    rewrite N, nth_error_map in E.
    destruct (nth_error (files st) i) as [fd |]; [| discriminate].
    injection E as E. exists fd. now split.
Qed.

Lemma results_name_inputs_witness :
  let st := Sample.batch (Sample.photo "a.jpg" 2000 1000) in
  exists st' : AppState,
    files st <> [] /\
    handleProcessAll Sample.host 0 Sample.randoms Sample.watermark Sample.resize st
      = Some st' /\
    isProcessing st' = false /\
    console st' = console st /\
    map originalName (processedImages st') = ["a.jpg"; "a.jpg"; "c.jpg"]%string.
Proof.
  intro st. eexists.
  assert (Hne : files st <> []) by discriminate.
  split; [exact Hne |]. split; [reflexivity |].
  split; [reflexivity |]. split; [reflexivity |].
  exact (proj1 (results_name_inputs Sample.host 0 Sample.randoms Sample.watermark
                  Sample.resize st _ Hne eq_refl eq_refl eq_refl)).
Defined.

Lemma tagFiles_files (h : Host) (randoms : nat -> Q) (newFiles : list File) :
  forall i, map file (tagFiles h randoms i newFiles) = newFiles.
Proof.
  induction newFiles as [| f rest IH]; intro i; simpl; [reflexivity |].
  now rewrite IH.
Qed.

(** X12.  Adding files keeps the files already there, in place, and does
    not touch the results; a batch run on the extended list that finishes
    without logging yields the old names followed by the new ones; after
    [clearAll] it yields the new ones only; and right after [clearAll]
    processing does nothing at all. *)
Theorem added_files_are_processed :
  forall (h : Host) (fuel : nat) (rf rp : nat -> Q)
         (watermark : WatermarkSettings) (resize : ResizeSettings)
         (st st' : AppState) (newFiles : list File),
    newFiles <> [] ->
    handleProcessAll h fuel rp watermark resize (handleFilesAdded h rf newFiles st)
      = Some st' ->
    isProcessing st' = false ->
    console st' = console st ->
    map file (files (handleFilesAdded h rf newFiles st))
      = map file (files st) ++ newFiles /\
    processedImages (handleFilesAdded h rf newFiles st) = processedImages st /\
    map originalName (processedImages st')
      = map (fun fd => name (file fd)) (files st) ++ map name newFiles /\
    (forall st'' : AppState,
        handleProcessAll h fuel rp watermark resize
          (handleFilesAdded h rf newFiles (clearAll st)) = Some st'' ->
        isProcessing st'' = false ->
        console st'' = console st ->
        map originalName (processedImages st'') = map name newFiles) /\
    handleProcessAll h fuel rp watermark resize (clearAll st) = Some (clearAll st).
Proof.
  intros h fuel rf rp watermark resize st st' newFiles Hnew Hrun Hoff Hlog.
  assert (Names : forall s, map (fun fd => name (file fd))
                              (files (handleFilesAdded h rf newFiles s))
                            = map (fun fd => name (file fd)) (files s)
                              ++ map name newFiles).
  { intro s. simpl. rewrite map_app. f_equal.
    rewrite <- (tagFiles_files h rf newFiles 0) at 2. now rewrite map_map. }
  assert (Ne : forall s, files (handleFilesAdded h rf newFiles s) <> []).
  { intros s E. apply (f_equal (map file)) in E. simpl in E.
    rewrite map_app, tagFiles_files in E.
    destruct (map file (files s)); [simpl in E; contradiction | discriminate]. }
  split; [simpl; now rewrite map_app, tagFiles_files |].
  split; [reflexivity |].
  split.
  - rewrite <- Names.
    apply (clean_finish_names h fuel rp watermark resize _ st' (Ne st) Hrun Hoff).
    exact Hlog.
  - split; [| reflexivity].
    intros st'' Hrun' Hoff' Hlog'.
    rewrite <- (app_nil_l (map name newFiles)).
    change (@nil string) with (map (fun fd => name (file fd)) (files (clearAll st))).
    rewrite <- Names.
    apply (clean_finish_names h fuel rp watermark resize _ st'' (Ne (clearAll st))
             Hrun' Hoff').
    exact Hlog'.
Qed.

Lemma added_files_are_processed_witness :
  let st := Sample.batch (Sample.photo "b.jpg" 2000 1000) in
  let more := [Sample.photo "d.jpg" 320 200] in
  exists st' : AppState,
    more <> [] /\
    handleProcessAll Sample.host 0 Sample.randoms Sample.watermark Sample.resize
      (handleFilesAdded Sample.host Sample.randoms more st) = Some st' /\
    isProcessing st' = false /\
    console st' = console st /\
    map originalName (processedImages st')
      = ["a.jpg"; "b.jpg"; "c.jpg"; "d.jpg"]%string.
Proof.
  intros st more. eexists.
  assert (Hne : more <> []) by discriminate.
  split; [exact Hne |]. split; [reflexivity |].
  split; [reflexivity |]. split; [reflexivity |].
  destruct (added_files_are_processed Sample.host 0 Sample.randoms Sample.randoms
              Sample.watermark Sample.resize st _ more Hne eq_refl eq_refl eq_refl)
    as (_ & _ & N & _).
  exact N.
Defined.

(** ** components/ImageGrid.tsx: the archive *)

Lemma digits_no_underscore (d : uint) :
  ~ In "_"%char (list_ascii_of_string (NilEmpty.string_of_uint d)).
Proof.
  induction d; simpl; intro Hin;
    try (destruct Hin as [E | Hin]; [discriminate E | auto]); exact Hin.
Qed.

Lemma string_of_uint_inj (d d' : uint) :
  NilEmpty.string_of_uint d = NilEmpty.string_of_uint d' -> d = d'.
Proof.
  intro E. apply (f_equal NilEmpty.uint_of_string) in E.
  rewrite !NilEmpty.usu in E. now injection E.
Qed.

Lemma decimal_inj (n m : nat) : decimal n = decimal m -> n = m.
Proof.
  unfold decimal. intro E.
  apply string_of_uint_inj in E. now apply Unsigned.to_uint_inj.
Qed.

(** Two strings cut at their first underscore agree piece by piece. *)
Lemma first_underscore (a b s t : string) :
  ~ In "_"%char (list_ascii_of_string a) ->
  ~ In "_"%char (list_ascii_of_string b) ->
  (a ++ String "_" s = b ++ String "_" t)%string ->
  a = b /\ s = t.
Proof.
  revert b. induction a as [| c a IH]; intros [| c' b] Ha Hb E; simpl in *.
  - injection E as ->. now split.
  - injection E as <- _. exfalso. apply Hb. now left.
  - injection E as -> _. exfalso. apply Ha. now left.
  - injection E as -> E.
    destruct (IH b) as [-> ->]; auto.
Qed.

Lemma archiveName_inj (i j : nat) (img img' : ProcessedImage) :
  archiveName i img = archiveName j img' ->
  i = j /\ originalName img = originalName img'.
Proof.
  unfold archiveName. intro E. simpl in E. injection E as E.
  apply first_underscore in E as [E1 E2];
    try apply digits_no_underscore.
  apply decimal_inj in E1. split; [lia | exact E2].
Qed.

Lemma archiveEntries_names (images : list ProcessedImage) :
  forall (index : nat) (nm : string),
    In nm (map fst (archiveEntries index images)) ->
    exists j img, (index <= j)%nat /\ nm = archiveName j img.
Proof.
  induction images as [| img rest IH]; intros index nm; simpl; [intros [] |].
  intros [<- | Hin].
  - exists index, img. split; [lia | reflexivity].
  - destruct (IH _ _ Hin) as (j & img' & Hj & ->).
    exists j, img'. split; [lia | reflexivity].
Qed.

(** X13.  [handleDownloadAll] files one archive entry per image, the
    [i]-th under the name [WEBSNAP_<i+1>_<originalName>], and no two entries
    share a name, even when images share their original name: no entry
    overwrites another. *)
Theorem archive_names_distinct :
  forall (images : list ProcessedImage),
    let entries := archiveEntries 0 images in
    List.length entries = List.length images /\
    NoDup (map fst entries) /\
    (forall (i : nat) (img : ProcessedImage),
        nth_error images i = Some img ->
        nth_error entries i = Some (archiveName i img, base64Data img)) /\
    (forall (i j : nat) (img img' : ProcessedImage),
        archiveName i img = archiveName j img' -> i = j).
Proof.
  intros images entries. subst entries.
  split; [| split; [| split]].
  - generalize 0%nat. induction images as [| img rest IH]; intro k; simpl;
      [reflexivity | now rewrite IH].
  - generalize 0%nat. induction images as [| img rest IH]; intro k; simpl;
      [constructor |].
    constructor; [| apply IH].
    intro Hin. apply archiveEntries_names in Hin as (j & img' & Hj & E).
    apply archiveName_inj in E as [E _]. lia.
  - assert (G : forall k i img,
               nth_error images i = Some img ->
               nth_error (archiveEntries k images) i
               = Some (archiveName (k + i) img, base64Data img)).
    { induction images as [| img0 rest IH]; intros k i img; [destruct i; discriminate |].
      destruct i as [| i]; simpl.
      - intros [= <-]. now rewrite Nat.add_0_r.
      - intro Hn. rewrite (IH (S k) i img Hn). do 3 f_equal. lia. }
    intros i img Hn. exact (G 0%nat i img Hn).
  - intros i j img img' E. now apply archiveName_inj in E as [E _].
Qed.

Lemma split_whole (sep : ascii) (s : string) :
  ~ In sep (list_ascii_of_string s) -> split sep s = [s].
Proof.
  induction s as [| c s IH]; simpl; intro Hno; [reflexivity |].
  rewrite IH by (intro H; apply Hno; now right).
  destruct (Ascii.eqb c sep) eqn:E; [| reflexivity].
  apply Ascii.eqb_eq in E. exfalso. apply Hno. now left.
Qed.

(** X14.  For an image whose URL is the prefix of a format followed by a
    payload without comma, the data filed in the archive is that payload,
    the very characters the size estimate counts; for a URL without any
    comma there is no data (the second piece of the split is undefined). *)
Theorem archived_data_is_payload :
  forall (img : ProcessedImage) (f : ImageFormat) (payload : string),
    ~ In ","%char (list_ascii_of_string payload) ->
    processedUrl img = (dataUriHead f ++ payload)%string ->
    base64Data img = Some payload /\
    estimateSize (processedUrl img) f
      = JS.Math_round (inject_Z (JS.strlen payload) * 3 / 4) /\
    (forall img' : ProcessedImage,
        ~ In ","%char (list_ascii_of_string (processedUrl img')) ->
        base64Data img' = None).
Proof.
  intros img f payload Hno Hurl. split; [| split].
  - unfold base64Data. rewrite Hurl.
    destruct f; simpl; rewrite (split_whole _ _ Hno); reflexivity.
  - rewrite Hurl. unfold estimateSize. rewrite strlen_append, inject_Z_plus.
    unfold JS.Math_round. apply Qfloor_comp.
    generalize (inject_Z (JS.strlen payload)),
               (inject_Z (JS.strlen (dataUriHead f))).
    intros p q. field.
  - intros img' Hno'. unfold base64Data. now rewrite (split_whole _ _ Hno').
Qed.

Lemma archived_data_is_payload_witness :
  exists r : ProcessedImage,
    processImage Sample.host 0 (1 # 5) (Sample.photo "a.jpg" 800 600)
      Sample.watermark Sample.resize = Some (Resolved r) /\
    ~ In ","%char (list_ascii_of_string "AAAA") /\
    processedUrl r = (dataUriHead image_jpeg ++ "AAAA")%string /\
    base64Data r = Some "AAAA"%string.
Proof.
  eexists. split; [reflexivity |].
  assert (Hno : ~ In ","%char (list_ascii_of_string "AAAA")).
  { simpl. intros [E | [E | [E | [E | []]]]]; discriminate E. }
  split; [exact Hno |]. split; [reflexivity |].
  refine (proj1 (archived_data_is_payload _ image_jpeg "AAAA" Hno _)).
  reflexivity.
Defined.

(** ** processImage: scale *)

